(** * The file-protocol access gate of [vs/code/electron-main/protocol.ts]

    A shallow embedding of [FileProtocolHandler]: the store of valid roots,
    the set of valid extensions, the two request handlers, and the grants
    that follow the life of a window. *)

From stdpp Require Import gmap strings list.
From Stdlib Require Import ZArith Ascii.

Open Scope string_scope.
Open Scope list_scope.

#[local] Set Warnings "-clear-no-such-hyp".

(** ** Strings and paths *)

Definition sep : ascii := "/"%char.

Definition is_sep (c : ascii) : bool := Ascii.eqb c sep.

(** ASCII case folding of one character: [A]..[Z] go to [a]..[z]. *)
Definition lower_ascii (c : ascii) : ascii :=
  let n := nat_of_ascii c in
  if (65 <=? n)%nat && (n <=? 90)%nat then ascii_of_nat (n + 32) else c.

Fixpoint toLowerCase (s : string) : string :=
  match s with
  | EmptyString => EmptyString
  | String c s' => String (lower_ascii c) (toLowerCase s')
  end.

(** [split s] is [s.split('/')]: the pieces between separators, empty
    pieces included, so the result is never empty. *)
Fixpoint split (s : string) : list string :=
  match s with
  | EmptyString => [EmptyString]
  | String c s' =>
      if is_sep c then EmptyString :: split s'
      else match split s' with
           | h :: t => String c h :: t
           | [] => [String c EmptyString]
           end
  end.

Definition nonempty (s : string) : bool :=
  match s with EmptyString => false | String _ _ => true end.

(** The path segments of [s]: the non-empty pieces between separators. *)
Definition segments (s : string) : list string := List.filter nonempty (split s).

(** A path is well formed when it is absolute; the empty path is not. *)
Definition absolute (s : string) : bool :=
  match s with
  | String c _ => is_sep c
  | EmptyString => false
  end.

(** All prefixes of a list, the empty one first. *)
Fixpoint prefixes {A} (l : list A) : list (list A) :=
  match l with
  | [] => [[]]
  | x :: l' => [] :: List.map (cons x) (prefixes l')
  end.

(** ** URIs ([vs/base/common/uri]): the five components *)

Record URI := mkURI {
  scheme : string;
  authority : string;
  path : string;
  query : string;
  fragment : string
}.

(** ** The root store *)

Module TernarySearchTree.

(** Modelled from the spec: [TernarySearchTree] ([vs/base/common/map]) is
    missing from the sources.  The spec's RootStore is a collection of
    normalized filesystem paths keyed for prefix queries on path
    segments; a root is case-folded when the store ignores path casing
    and case-preserved otherwise, the same way at insert and at lookup. *)
Record t := mk {
  ignorePathCasing : bool;
  roots : gset (list string)
}.

(** [TernarySearchTree.forUris(ignorePathCasing)]: the empty store. *)
Definition forUris (ignorePathCasing : bool) : t :=
  {| ignorePathCasing := ignorePathCasing; roots := ∅ |}.

(** Modelled from the spec: the normalization of a path, "per platform
    case-sensitivity rule", into its segments. *)
Definition normalize (ic : bool) (p : string) : list string :=
  segments (if ic then toLowerCase p else p).

Definition key (tr : t) (u : URI) : list string :=
  normalize (ignorePathCasing tr) (path u).

(** Modelled from the spec: [insert(root)], idempotent, normalizing. *)
Definition set (tr : t) (u : URI) : t :=
  {| ignorePathCasing := ignorePathCasing tr;
     roots := {[ key tr u ]} ∪ roots tr |}.

(** Modelled from the spec: [remove(root)], a no-op if absent. *)
Definition delete (tr : t) (u : URI) : t :=
  {| ignorePathCasing := ignorePathCasing tr;
     roots := roots tr ∖ {[ key tr u ]} |}.

(** Modelled from the spec: the exact lookup [validRoots.get(root)] of
    [addValidRoot], which asks whether this root itself is an entry,
    "already present in the store". *)
Definition get (tr : t) (u : URI) : bool :=
  bool_decide (key tr u ∈ roots tr).

(** Modelled from the spec: [findCoveringRoot(path)].  The path is
    normalized the same way as the roots; it is covered when one of the
    prefixes of its segment list is a stored root.  An empty or
    malformed (not absolute) path never matches.  The work is one
    membership test per segment of the path. *)
Definition findSubstr (tr : t) (u : URI) : bool :=
  absolute (path u)
  && existsb (λ pre, bool_decide (pre ∈ roots tr)) (prefixes (key tr u)).

End TernarySearchTree.

(** ** External collaborators *)

(** The functions of [vs/base/common/uri] and [vs/base/common/network]
    that the handler calls and whose code is not part of this file: how a
    URL string and a filesystem path become a [URI], how a [vscode-file]
    URI is mapped back to its [file] URI, and how a URI is rendered as a
    path of the host. *)
Class Host := {
  URI_parse : string → URI;
  URI_file : string → URI;
  asFileUri : URI → URI;
  fsPath : URI → string
}.

(** The scheme names of [vs/base/common/network]. *)
Module Schemas.
Definition file : string := "file".
Definition vscodeFileResource : string := "vscode-file".
End Schemas.

(** The suffix of [s] that starts at its last dot, if it has a dot. *)
Fixpoint last_dot_suffix (s : string) : option string :=
  match s with
  | EmptyString => None
  | String c s' =>
      match last_dot_suffix s' with
      | Some e => Some e
      | None => if Ascii.eqb c "."%char then Some s else None
      end
  end.

(** The extension, dot included, of the last piece of a path. *)
Definition path_extension (p : string) : string :=
  default EmptyString (last_dot_suffix (List.last (split p) EmptyString)).

(** Modelled from the spec: [extname] ([vs/base/common/resources]) is
    missing from the sources.  The allow-list is compared with "the
    lowercase, dot-inclusive extension extracted from the request path". *)
Definition extname (u : URI) : string := toLowerCase (path_extension (path u)).

(** The four paths of [INativeEnvironmentService] read by the constructor. *)
Record INativeEnvironmentService := {
  appRoot : string;
  extensionsPath : string;
  globalStorageHome : URI;
  workspaceStorageHome : URI
}.

(** ** The handler object *)

Record FileProtocolHandler := {
  validRoots : TernarySearchTree.t;
  validExtensions : gset string
}.

Definition with_validRoots (this : FileProtocolHandler) (tr : TernarySearchTree.t)
  : FileProtocolHandler :=
  {| validRoots := tr; validExtensions := validExtensions this |}.

(** What a request handler hands to its callback:
    [string | FilePathWithHeaders | { error: number }]; the handler only
    ever builds the last two. *)
Inductive ProtocolResult :=
  | FilePath (path : string)
  | Error (error : Z).

Definition ABORTED : Z := (-3)%Z.

Record ProtocolRequest := { url : string }.

(** What a request handler does, in order: its queries of the two tables,
    its log entries and its calls of the callback. *)
Inductive Event :=
  | FindSubstr (u : URI)
  | HasExtension (e : string)
  | LogError (msg : string)
  | Callback (r : ProtocolResult).

(** A handler reads the object and leaves a trace. *)
Definition Handler (A : Type) : Type := FileProtocolHandler → A * list Event.

#[global] Instance Handler_ret : MRet Handler := λ A a _, (a, []).
#[global] Instance Handler_bind : MBind Handler := λ A B f m this,
  let '(a, t1) := m this in
  let '(b, t2) := f a this in
  (b, t1 ++ t2).

Definition validRoots_findSubstr (u : URI) : Handler bool :=
  λ this, (TernarySearchTree.findSubstr (validRoots this) u, [FindSubstr u]).

Definition validExtensions_has (e : string) : Handler bool :=
  λ this, (bool_decide (e ∈ validExtensions this), [HasExtension e]).

Definition logService_error (msg : string) : Handler unit :=
  λ _, ((), [LogError msg]).

Definition callback (r : ProtocolResult) : Handler unit :=
  λ _, ((), [Callback r]).

Section Handlers.
Context `{Host}.
Variable isLinux : bool.
Variable isPreferringBrowserCodeLoad : bool.

(** The constructor: the empty store, then the four initial roots. *)
Definition constructor (environmentService : INativeEnvironmentService)
  : FileProtocolHandler :=
  let r0 := TernarySearchTree.forUris (negb isLinux) in
  let r1 := TernarySearchTree.set r0 (URI_file (appRoot environmentService)) in
  let r2 := TernarySearchTree.set r1 (URI_file (extensionsPath environmentService)) in
  let r3 := TernarySearchTree.set r2 (globalStorageHome environmentService) in
  let r4 := TernarySearchTree.set r3 (workspaceStorageHome environmentService) in
  {| validRoots := r4;
     validExtensions := {[ ".png"; ".jpg"; ".jpeg"; ".gif"; ".bmp" ]} |}.

Definition handleFileRequest (request : ProtocolRequest) : Handler unit :=
  let fileUri := URI_parse (url request) in
  if negb isPreferringBrowserCodeLoad then
    covered ← validRoots_findSubstr fileUri;
    if covered : bool then callback (FilePath (fsPath fileUri))
    else
      allowed ← validExtensions_has (extname fileUri);
      if allowed : bool then callback (FilePath (fsPath fileUri))
      else
        logService_error
          (Schemas.file +:+ ": Refused to load resource " +:+ fsPath fileUri
           +:+ " from " +:+ Schemas.file +:+ ": protocol (original URL: "
           +:+ url request +:+ ")");;
        callback (Error ABORTED)
  else
    logService_error
      ("Refused to load resource " +:+ fsPath fileUri
       +:+ " from " +:+ Schemas.file +:+ ": protocol (original URL: "
       +:+ url request +:+ ")");;
    callback (Error ABORTED).

Definition handleResourceRequest (request : ProtocolRequest) : Handler unit :=
  let uri := URI_parse (url request) in
  let fileUri := asFileUri uri in
  covered ← validRoots_findSubstr fileUri;
  if covered : bool then callback (FilePath (fsPath fileUri))
  else
    allowed ← validExtensions_has (extname fileUri);
    if allowed : bool then callback (FilePath (fsPath fileUri))
    else
      logService_error
        (Schemas.vscodeFileResource +:+ ": Refused to load resource "
         +:+ fsPath fileUri +:+ " from " +:+ Schemas.vscodeFileResource
         +:+ ": protocol (original URL: " +:+ url request +:+ ")");;
      callback (Error ABORTED).

End Handlers.

(** ** Grants and their revocation handles *)

(** Modelled from the spec: [toDisposable], [Disposable.None] and
    [DisposableStore] ([vs/base/common/lifecycle]) and [Event.any]
    ([vs/base/common/event]) are missing from the sources.  A revocation
    handle "removes the corresponding root from the store, exactly once,
    safe to call multiple times"; [Disposable.None] does nothing.  The one
    closure the handler wraps is [() => this.validRoots.delete(root)], so a
    handle is the root it captured and the identity of its once-cell. *)
Inductive IDisposable :=
  | Disposable_None
  | toDisposable (cell : nat) (root : URI).

(** The configuration of a window, as far as the handler reads it. *)
Record INativeWindowConfiguration := {
  extensionDevelopmentPath : option (list string);
  extensionTestsPath : option string
}.

Record ICodeWindow := {
  id : nat;
  config : option INativeWindowConfiguration
}.

(** The handler object together with the disposables alive around it:
    the once-cells already spent, the next fresh cell, and the
    [DisposableStore]s subscribed to the close-or-destroy signal of a
    window (by window id, oldest first). *)
Record State := {
  handler : FileProtocolHandler;
  disposed : gset nat;
  allocated : nat;
  listeners : list (nat * list IDisposable)
}.

Definition with_listeners (s : State) (ls : list (nat * list IDisposable)) : State :=
  {| handler := handler s; disposed := disposed s; allocated := allocated s;
     listeners := ls |}.

(** [addValidRoot]: a root not yet in the store is added and comes with
    a handle that deletes it; a root already there comes with
    [Disposable.None]. *)
Definition addValidRoot (root : URI) (s : State) : IDisposable * State :=
  if negb (TernarySearchTree.get (validRoots (handler s)) root) then
    (toDisposable (allocated s) root,
     {| handler := with_validRoots (handler s)
                     (TernarySearchTree.set (validRoots (handler s)) root);
        disposed := disposed s;
        allocated := S (allocated s);
        listeners := listeners s |})
  else (Disposable_None, s).

(** [d.dispose()]. *)
Definition dispose (d : IDisposable) (s : State) : State :=
  match d with
  | Disposable_None => s
  | toDisposable cell root =>
      if bool_decide (cell ∈ disposed s) then s
      else
        {| handler := with_validRoots (handler s)
                        (TernarySearchTree.delete (validRoots (handler s)) root);
           disposed := {[ cell ]} ∪ disposed s;
           allocated := allocated s;
           listeners := listeners s |}
  end.

Definition dispose_all (ds : list IDisposable) (s : State) : State :=
  foldl (λ s d, dispose d s) s ds.

(** The loop [for (const p of paths) disposables.add(this.addValidRoot(..))]. *)
Fixpoint addValidRoots (roots : list URI) (s : State) : list IDisposable * State :=
  match roots with
  | [] => ([], s)
  | root :: roots' =>
      let '(d, s1) := addValidRoot root s in
      let '(ds, s2) := addValidRoots roots' s1 in
      (d :: ds, s2)
  end.

(** JavaScript truthiness of [string[] | undefined] and [string | undefined]. *)
Definition truthy_array {A} (o : option (list A)) : bool :=
  match o with Some _ => true | None => false end.

Definition truthy_string (o : option string) : bool :=
  match o with Some (String _ _) => true | _ => false end.

Inductive Signal :=
  | DidSignalReadyWindow (window : ICodeWindow)
  | DidClose (window : nat)
  | DidDestroy (window : nat).

Section Lifecycle.
Context `{Host}.
Variable isLinux : bool.

Definition initial (environmentService : INativeEnvironmentService) : State :=
  {| handler := constructor isLinux environmentService;
     disposed := ∅; allocated := 0; listeners := [] |}.

(** The listener that [injectWindowsMainService] registers on
    [onDidSignalReadyWindow]. *)
Definition onDidSignalReadyWindow (window : ICodeWindow) (s : State) : State :=
  let devPath := config window ≫= extensionDevelopmentPath in
  let testsPath := config window ≫= extensionTestsPath in
  if truthy_array devPath || truthy_string testsPath then
    let '(ds1, s1) :=
      match devPath with
      | Some paths => addValidRoots (URI_file <$> paths) s
      | None => ([], s)
      end in
    let '(ds2, s2) :=
      match testsPath with
      | Some (String c p) =>
          let '(d, s') := addValidRoot (URI_file (String c p)) s1 in ([d], s')
      | _ => ([], s1)
      end in
    with_listeners s2 (listeners s2 ++ [(id window, ds1 ++ ds2)])
  else s.

(** The listener on [Event.any(window.onDidClose, window.onDidDestroy)]:
    every store subscribed to that window is disposed, which also ends
    its subscription. *)
Definition onDidCloseOrDestroy (window : nat) (s : State) : State :=
  let mine := filter (λ l, fst l = window) (listeners s) in
  let others := filter (λ l, fst l ≠ window) (listeners s) in
  dispose_all (mjoin (snd <$> mine)) (with_listeners s others).

Definition step (s : State) (sig : Signal) : State :=
  match sig with
  | DidSignalReadyWindow window => onDidSignalReadyWindow window s
  | DidClose window => onDidCloseOrDestroy window s
  | DidDestroy window => onDidCloseOrDestroy window s
  end.

Definition run (sigs : list Signal) (s : State) : State := foldl step s sigs.

End Lifecycle.

(** ** Clients, traces and the decision of the spec *)

(** A client of [addValidRoot]: it asks for a grant, or revokes the
    handle that its [n]-th grant returned. *)
Inductive Call :=
  | Grant (root : URI)
  | Revoke (n : nat).

Definition call (st : State * list IDisposable) (c : Call) : State * list IDisposable :=
  match c with
  | Grant root =>
      let '(d, s') := addValidRoot root st.1 in (s', st.2 ++ [d])
  | Revoke n =>
      match st.2 !! n with
      | Some d => (dispose d st.1, st.2)
      | None => st
      end
  end.

Definition calls (cs : list Call) (st : State * list IDisposable)
  : State * list IDisposable := foldl call st cs.

(** [join] puts the separators back: [split] loses nothing. *)
Fixpoint join (l : list string) : string :=
  match l with
  | [] => ""
  | [x] => x
  | x :: l' => x +:+ String sep (join l')
  end.

(** The decision of the spec's data model. *)
Inductive Decision :=
  | Serve (path : string)
  | Deny (errorCode : Z).

Definition result_of (d : Decision) : ProtocolResult :=
  match d with
  | Serve p => FilePath p
  | Deny e => Error e
  end.

Definition callbacks (t : list Event) : list ProtocolResult :=
  omap (λ e, match e with Callback r => Some r | _ => None end) t.

Definition logs (t : list Event) : list string :=
  omap (λ e, match e with LogError m => Some m | _ => None end) t.


Definition refusal (schemeTag fileUri_fsPath original : string) : string :=
  schemeTag +:+ ": Refused to load resource " +:+ fileUri_fsPath
  +:+ " from " +:+ schemeTag +:+ ": protocol (original URL: "
  +:+ original +:+ ")".

(** A trace resolves once: one call of the callback, as the last
    event, and an error, if that is what it passes, is ABORTED, -3. *)
Definition resolves_once (t : list Event) : Prop :=
  ∃ r, callbacks t = [r] ∧ last t = Some (Callback r)
       ∧ match r with Error e => e = (-3)%Z | FilePath _ => True end.

Section Specification.
Context `{Host}.

(** The decision procedure in the words of the spec (§4.4, steps 2 to
    4), on the resolved URI of the request. *)
Definition findCoveringRoot (this : FileProtocolHandler) (fileUri : URI) : bool :=
  TernarySearchTree.findSubstr (validRoots this) fileUri.

Definition isAllowed (this : FileProtocolHandler) (extension : string) : bool :=
  bool_decide (extension ∈ validExtensions this).

Definition decision (this : FileProtocolHandler) (fileUri : URI) : Decision :=
  if findCoveringRoot this fileUri then Serve (fsPath fileUri)
  else if isAllowed this (extname fileUri) then Serve (fsPath fileUri)
  else Deny ABORTED.

(** A trace carries out the decision procedure on [fileUri]: one call
    of the callback, with the decision; one log entry exactly when the
    decision is a denial; the root query first, and the extension
    query, if any, after it and only when no root covers. *)
Definition arbitrates (this : FileProtocolHandler) (fileUri : URI)
    (t : list Event) : Prop :=
  callbacks t = [result_of (decision this fileUri)]
  ∧ length (logs t)
    = match decision this fileUri with Deny _ => 1 | Serve _ => 0 end
  ∧ head t = Some (FindSubstr fileUri)
  ∧ ∀ pre e post, t = pre ++ HasExtension e :: post →
      FindSubstr fileUri ∈ pre ∧ e = extname fileUri
      ∧ findCoveringRoot this fileUri = false.

Definition checked_trace (schemeTag : string) (this : FileProtocolHandler)
    (fileUri : URI) (original : string) : list Event :=
  FindSubstr fileUri ::
  if findCoveringRoot this fileUri then [Callback (FilePath (fsPath fileUri))]
  else HasExtension (extname fileUri) ::
       if isAllowed this (extname fileUri)
       then [Callback (FilePath (fsPath fileUri))]
       else [LogError (refusal schemeTag (fsPath fileUri) original);
             Callback (Error ABORTED)].

(** The roots a ready window asks for: its development paths, then its
    tests path. *)
Definition requested (window : ICodeWindow) : list URI :=
  match config window ≫= extensionDevelopmentPath with
  | Some paths => URI_file <$> paths
  | None => []
  end
  ++ match config window ≫= extensionTestsPath with
     | Some (String c p) => [URI_file (String c p)]
     | _ => []
     end.

End Specification.

(** ** The state seen by the invariants *)

Definition stored (s : State) : gset (list string) :=
  TernarySearchTree.roots (validRoots (handler s)).

Definition rootkey (s : State) (root : URI) : list string :=
  TernarySearchTree.key (validRoots (handler s)) root.

Definition cell_of (d : IDisposable) : option nat :=
  match d with
  | toDisposable c _ => Some c
  | Disposable_None => None
  end.

Definition cells (hs : list IDisposable) : list nat := omap cell_of hs.

(** The handles held by the listeners of the windows. *)
Definition live (s : State) : list IDisposable := mjoin (snd <$> listeners s).

(** The roots set by the constructor. *)
Definition initialRoots `{Host} (isLinux : bool)
    (environmentService : INativeEnvironmentService) : gset (list string) :=
  stored (initial isLinux environmentService).

Definition is_terminal (window : nat) (sig : Signal) : bool :=
  match sig with
  | DidClose w | DidDestroy w => bool_decide (w = window)
  | DidSignalReadyWindow _ => false
  end.

Section Invariants.
Variable boot : gset (list string).

(** What holds of the store and a collection [hs] of handles that
    [addValidRoot] has returned: the initial roots are stored; cells are
    allocated in order; an unspent handle has its root stored, that root
    is not an initial root, and no other unspent handle has the same
    root. *)
Record Granted (s : State) (hs : list IDisposable) : Prop := {
  granted_boot : boot ⊆ stored s;
  granted_spent : ∀ c, c ∈ disposed s → c < allocated s;
  granted_cell : ∀ c r, toDisposable c r ∈ hs → c < allocated s;
  granted_root : ∀ c r, toDisposable c r ∈ hs → c ∉ disposed s →
                 rootkey s r ∈ stored s ∧ rootkey s r ∉ boot;
  granted_unique : ∀ c1 r1 c2 r2,
      toDisposable c1 r1 ∈ hs → toDisposable c2 r2 ∈ hs →
      c1 ∉ disposed s → c2 ∉ disposed s →
      rootkey s r1 = rootkey s r2 → c1 = c2
}.

(** The handles [hs] are all unspent and have distinct cells. *)
Record Held (s : State) (hs : list IDisposable) : Prop := {
  held_granted : Granted s hs;
  held_unspent : ∀ c r, toDisposable c r ∈ hs → c ∉ disposed s;
  held_nodup : NoDup (cells hs)
}.

(** The handles a client was given: granted, and no cell given twice. *)
Definition Issued (st : State * list IDisposable) : Prop :=
  Granted st.1 st.2
  ∧ ∀ i j c r r', st.2 !! i = Some (toDisposable c r) →
                  st.2 !! j = Some (toDisposable c r') → i = j.

End Invariants.

(** ** A concrete host, for running the model *)

Definition file_uri (p : string) : URI := mkURI "file" "" p "" "".

Fixpoint strip_prefix (pre s : string) : option string :=
  match pre with
  | EmptyString => Some s
  | String a pre' =>
      match s with
      | String b s' => if Ascii.eqb a b then strip_prefix pre' s' else None
      | EmptyString => None
      end
  end.

(** A host with POSIX paths: the path of a URL is what follows its
    scheme and authority, a filesystem path is its own URI path, and the
    path of the host is the URI path. *)
Definition posix_host : Host := {|
  URI_parse := λ url,
    file_uri (match strip_prefix "file://" url with
              | Some p => p
              | None => default url (strip_prefix "vscode-file://vscode-app" url)
              end);
  URI_file := file_uri;
  asFileUri := λ u, mkURI "file" "" (path u) (query u) (fragment u);
  fsPath := path
|}.

Definition test_env : INativeEnvironmentService := {|
  appRoot := "/app";
  extensionsPath := "/home/u/.vscode/extensions";
  globalStorageHome := file_uri "/home/u/.config/Code/User/globalStorage";
  workspaceStorageHome := file_uri "/home/u/.config/Code/User/workspaceStorage"
|}.

Definition dev_window (w : nat) (p : string) : ICodeWindow :=
  {| id := w;
     config := Some {| extensionDevelopmentPath := Some [p];
                       extensionTestsPath := None |} |}.

Definition covered `{Host} (s : State) (p : string) : bool :=
  TernarySearchTree.findSubstr (validRoots (handler s)) (URI_file p).

Definition tests_window (w : nat) (p : string) : ICodeWindow :=
  {| id := w;
     config := Some {| extensionDevelopmentPath := None;
                       extensionTestsPath := Some p |} |}.

#[global] Instance URI_eq_dec : EqDecision URI.
Proof. solve_decision. Defined.

#[global] Instance IDisposable_eq_dec : EqDecision IDisposable.
Proof. solve_decision. Defined.

(** ** Notions for the further properties *)

(** [p] is the path [root] or a path below it. *)
Definition descends (root p : string) : Prop :=
  p = root ∨ ∃ rest, p = root +:+ String sep rest.

(** The stored key a handle deletes, and the keys of a list of handles. *)
Definition key_of (s : State) (d : IDisposable) : option (list string) :=
  match d with
  | toDisposable _ root => Some (rootkey s root)
  | Disposable_None => None
  end.

Definition keys (s : State) (hs : list IDisposable) : gset (list string) :=
  list_to_set (omap (key_of s) hs).

(** Every stored root is an initial root or the root of one of [hs]. *)
Definition Accounted (boot : gset (list string)) (s : State)
    (hs : list IDisposable) : Prop :=
  stored s = boot ∪ keys s hs.

(** A trace logs on denial only: nothing when it serves, and when it
    denies one entry that names the resolved path [fsp] and the original
    URL, the closing parenthesis last. *)
Definition logs_denial_only (fsp original : string) (t : list Event) : Prop :=
  (∀ p, callbacks t = [FilePath p] → logs t = [])
  ∧ (∀ e, callbacks t = [Error e] →
      ∃ pre mid, logs t = [pre +:+ fsp +:+ mid +:+ original +:+ ")"]).

(** The four roots the constructor sets. *)
Definition constructorRoots `{Host} (environmentService : INativeEnvironmentService)
  : list URI :=
  [URI_file (appRoot environmentService);
   URI_file (extensionsPath environmentService);
   globalStorageHome environmentService;
   workspaceStorageHome environmentService].

(** ** The handlers over collaborators that may throw *)

(** How a call ends: it returns a value or throws an error.  For an
    [async] function, [Thrown] is the rejection of its promise. *)
Inductive Outcome (A : Type) : Type :=
  | Returned (a : A)
  | Thrown (error : string).

Arguments Returned {A} a.
Arguments Thrown {A} error.

#[global] Instance Outcome_ret : MRet Outcome := λ A a, Returned a.
#[global] Instance Outcome_bind : MBind Outcome := λ A B f o,
  match o with
  | Returned a => f a
  | Thrown e => Thrown e
  end.

(** The outcome without its value. *)
Definition void {A} (o : Outcome A) : Outcome unit :=
  match o with
  | Returned _ => Returned ()
  | Thrown e => Thrown e
  end.

(** The calls out of the handlers into [vs/base/common/uri] and
    [vs/base/common/network], each of which may throw: the code of these
    functions is not part of this file and the handlers wrap none of them
    in a [try]. *)
Class ThrowingHost := {
  try_URI_parse : string → Outcome URI;
  try_asFileUri : URI → Outcome URI;
  try_fsPath : URI → Outcome string
}.

(** The collaborators of a [Host], none of which throws. *)
Definition returning (H : Host) : ThrowingHost := {|
  try_URI_parse := λ url, Returned (URI_parse url);
  try_asFileUri := λ u, Returned (asFileUri u);
  try_fsPath := λ u, Returned (fsPath u)
|}.

(** An [async] handler reads the object and leaves a trace, up to the
    point where it returns or a call it makes throws. *)
Definition Async (A : Type) : Type :=
  FileProtocolHandler → Outcome A * list Event.

#[global] Instance Async_ret : MRet Async := λ A a _, (Returned a, []).
#[global] Instance Async_bind : MBind Async := λ A B f m this,
  match m this with
  | (Returned a, t1) => let '(o, t2) := f a this in (o, t1 ++ t2)
  | (Thrown e, t1) => (Thrown e, t1)
  end.

Definition attempt {A} (o : Outcome A) : Async A := λ _, (o, []).

Definition perform {A} (m : Handler A) : Async A :=
  λ this, let '(a, t) := m this in (Returned a, t).

Section AsyncHandlers.
Context `{ThrowingHost}.
Variable isPreferringBrowserCodeLoad : bool.

(** [handleFileRequest], statement by statement, with the calls that may
    throw: [URI.parse] first; [fileUri.fsPath] where the argument of the
    callback or the text of the log entry is built, before the callback
    or the log is called. *)
Definition handleFileRequest_async (request : ProtocolRequest) : Async unit :=
  fileUri ← attempt (try_URI_parse (url request));
  if negb isPreferringBrowserCodeLoad then
    covered ← perform (validRoots_findSubstr fileUri);
    if covered : bool then
      p ← attempt (try_fsPath fileUri);
      perform (callback (FilePath p))
    else
      allowed ← perform (validExtensions_has (extname fileUri));
      if allowed : bool then
        p ← attempt (try_fsPath fileUri);
        perform (callback (FilePath p))
      else
        p ← attempt (try_fsPath fileUri);
        perform (logService_error
                   (Schemas.file +:+ ": Refused to load resource " +:+ p
                    +:+ " from " +:+ Schemas.file +:+ ": protocol (original URL: "
                    +:+ url request +:+ ")"));;
        perform (callback (Error ABORTED))
  else
    p ← attempt (try_fsPath fileUri);
    perform (logService_error
               ("Refused to load resource " +:+ p
                +:+ " from " +:+ Schemas.file +:+ ": protocol (original URL: "
                +:+ url request +:+ ")"));;
    perform (callback (Error ABORTED)).

(** [handleResourceRequest], likewise: [URI.parse], then
    [FileAccess.asFileUri], then the checks. *)
Definition handleResourceRequest_async (request : ProtocolRequest) : Async unit :=
  uri ← attempt (try_URI_parse (url request));
  fileUri ← attempt (try_asFileUri uri);
  covered ← perform (validRoots_findSubstr fileUri);
  if covered : bool then
    p ← attempt (try_fsPath fileUri);
    perform (callback (FilePath p))
  else
    allowed ← perform (validExtensions_has (extname fileUri));
    if allowed : bool then
      p ← attempt (try_fsPath fileUri);
      perform (callback (FilePath p))
    else
      p ← attempt (try_fsPath fileUri);
      perform (logService_error
                 (Schemas.vscodeFileResource +:+ ": Refused to load resource "
                  +:+ p +:+ " from " +:+ Schemas.vscodeFileResource
                  +:+ ": protocol (original URL: " +:+ url request +:+ ")"));;
      perform (callback (Error ABORTED)).

(** What the calls of a handler into its collaborators come to: the
    first one that throws, if any. *)
Definition file_collaborators (request : ProtocolRequest) : Outcome unit :=
  void (fileUri ← try_URI_parse (url request); try_fsPath fileUri).

Definition resource_collaborators (request : ProtocolRequest) : Outcome unit :=
  void (uri ← try_URI_parse (url request);
        fileUri ← try_asFileUri uri;
        try_fsPath fileUri).

End AsyncHandlers.

(** A run of a handler settles: if it returned it has resolved once; if
    a call threw, the callback was never called. *)
Definition settles (r : Outcome unit * list Event) : Prop :=
  match r.1 with
  | Returned _ => resolves_once r.2
  | Thrown _ => callbacks r.2 = []
  end.

(** A host whose [URI.parse] validates what it parsed and throws on a
    file URL whose path begins with two slashes. *)
Definition validating_host : ThrowingHost := {|
  try_URI_parse := λ url,
    match strip_prefix "file://" url with
    | Some (String "/" (String "/" _)) =>
        Thrown "[UriError]: If a URI does not contain an authority component, then the path cannot begin with two slash characters"
    | Some p => Returned (file_uri p)
    | None => Returned (file_uri url)
    end;
  try_asFileUri := λ u, Returned (mkURI "file" "" (path u) (query u) (fragment u));
  try_fsPath := λ u, Returned (path u)
|}.

(** * Facts *)

Example shared_path :
  let s := run (H := posix_host)
             [DidSignalReadyWindow (dev_window 1 "/dev/ext");
              DidSignalReadyWindow (dev_window 2 "/dev/ext");
              DidClose 1] (initial (H := posix_host) true test_env) in
  (covered (H := posix_host) s "/dev/ext", covered (H := posix_host) s "/app/x") = (false, true).
Proof. vm_compute. reflexivity. Qed.

(** ** Facts about strings and segments *)

Lemma lower_ascii_idem c : lower_ascii (lower_ascii c) = lower_ascii c.
Proof. destruct c as [[] [] [] [] [] [] [] []]; reflexivity. Qed.

Lemma lower_ascii_sep c : is_sep (lower_ascii c) = is_sep c.
Proof. destruct c as [[] [] [] [] [] [] [] []]; reflexivity. Qed.

Lemma is_sep_true c : is_sep c = true ↔ c = sep.
Proof. unfold is_sep. apply Ascii.eqb_eq. Qed.

Lemma append_nil b : "" +:+ b = b.
Proof. reflexivity. Qed.

Lemma append_cons c a b : String c a +:+ b = String c (a +:+ b).
Proof. reflexivity. Qed.

(** [String.append] is sealed against [simpl]; unfold it by rewriting. *)
Ltac str_simpl := repeat (rewrite ?append_nil, ?append_cons; simpl).

Lemma toLowerCase_app a b :
  toLowerCase (a +:+ b) = toLowerCase a +:+ toLowerCase b.
Proof. induction a as [|c a IH]; str_simpl; [done | by rewrite IH]. Qed.

Lemma toLowerCase_idem s : toLowerCase (toLowerCase s) = toLowerCase s.
Proof.
  induction s as [|c s IH]; simpl; [done |].
  by rewrite lower_ascii_idem, IH.
Qed.

Lemma absolute_toLowerCase s : absolute (toLowerCase s) = absolute s.
Proof. destruct s; simpl; [done | apply lower_ascii_sep]. Qed.

Lemma append_empty_r s : s +:+ "" = s.
Proof. induction s as [|c s IH]; str_simpl; [done | by rewrite IH]. Qed.

Lemma append_self_inv s t : s = s +:+ t → t = "".
Proof.
  induction s as [|c s IH]; str_simpl; [done |].
  intros Hs. injection Hs as Hs. auto.
Qed.

Lemma absolute_app a b : absolute a = true → absolute (a +:+ b) = true.
Proof. by destruct a. Qed.

Lemma split_nonnil s : split s ≠ [].
Proof.
  destruct s as [|c s]; simpl; [done |].
  destruct (is_sep c); [done |]. by destruct (split s).
Qed.

(** Splitting a concatenation: the last piece of the left part and the
    first piece of the right part are glued, the others are kept. *)
Lemma split_app a b :
  ∃ la x y lb,
    split a = la ++ [x] ∧ split b = y :: lb
    ∧ split (a +:+ b) = la ++ [x +:+ y] ++ lb.
Proof.
  induction a as [|c a (la & x & y & lb & Ha & Hb & Hab)].
  - destruct (split b) as [|y lb] eqn:Hb; [by destruct (split_nonnil b) |].
    exists [], "", y, lb. str_simpl. by rewrite Hb.
  - str_simpl. destruct (is_sep c).
    + exists ("" :: la), x, y, lb. rewrite Ha, Hab. done.
    + rewrite Ha, Hab. destruct la as [|h t]; simpl.
      * by exists [], (String c x), y, lb.
      * by exists (String c h :: t), x, y, lb.
Qed.

Lemma split_app_sep a b : split (a +:+ String sep b) = split a ++ split b.
Proof.
  destruct (split_app a (String sep b)) as (la & x & y & lb & Ha & Hb & Hab).
  simpl in Hb. injection Hb as <- <-.
  by rewrite Hab, Ha, append_empty_r, <- app_assoc.
Qed.

Lemma segments_app_sep a b : segments (a +:+ String sep b) = segments a ++ segments b.
Proof. unfold segments. by rewrite split_app_sep, List.filter_app. Qed.

Lemma nonempty_toLowerCase s : nonempty (toLowerCase s) = nonempty s.
Proof. by destruct s. Qed.

Lemma split_toLowerCase s : split (toLowerCase s) = toLowerCase <$> split s.
Proof.
  induction s as [|c s IH]; simpl; [done |].
  rewrite lower_ascii_sep, IH. destruct (is_sep c); [done |].
  by destruct (split s).
Qed.

Lemma filter_nonempty_lower l :
  List.filter nonempty (toLowerCase <$> l) = toLowerCase <$> List.filter nonempty l.
Proof.
  induction l as [|x l IH]; csimpl; [done |].
  rewrite nonempty_toLowerCase, IH. by destruct (nonempty x).
Qed.

Lemma segments_toLowerCase s : segments (toLowerCase s) = toLowerCase <$> segments s.
Proof. unfold segments. by rewrite split_toLowerCase, filter_nonempty_lower. Qed.

Lemma join_split s : join (split s) = s.
Proof.
  induction s as [|c s IH]; simpl; [done |].
  destruct (is_sep c) eqn:Hc.
  - apply is_sep_true in Hc as ->.
    destruct (split s) as [|h t] eqn:Hs; [by destruct (split_nonnil s) |].
    simpl in *. by rewrite IH.
  - destruct (split s) as [|h t] eqn:Hs; [by destruct (split_nonnil s) |].
    destruct t; simpl in *; by rewrite <- IH.
Qed.

Lemma filter_nonempty_fixed l :
  List.filter nonempty l = toLowerCase <$> List.filter nonempty l →
  l = toLowerCase <$> l.
Proof.
  induction l as [|x l IH]; csimpl; [done |].
  destruct x as [|c x]; csimpl.
  - intros Hl. by rewrite <- IH.
  - intros Hl. injection Hl as Hc Hx Hl. rewrite <- IH by done. congruence.
Qed.

Lemma segments_lower_fixed s :
  segments s = toLowerCase <$> segments s → toLowerCase s = s.
Proof.
  intros Hs. apply filter_nonempty_fixed in Hs.
  rewrite <- (join_split (toLowerCase s)), split_toLowerCase, <- Hs.
  apply join_split.
Qed.

(** ** Facts about the store *)

Lemma elem_of_prefixes {A} (pre l : list A) : pre ∈ prefixes l ↔ pre `prefix_of` l.
Proof.
  revert pre. induction l as [|x l IH]; intros pre; simpl.
  - rewrite list_elem_of_singleton. split; [intros ->; done |].
    intros Hp. by apply prefix_nil_inv.
  - rewrite elem_of_cons, list_elem_of_fmap. split.
    + intros [-> | (q & -> & Hq)]; [apply prefix_nil |].
      apply prefix_cons, IH, Hq.
    + intros Hp. destruct pre as [|y pre]; [by left | right].
      pose proof (prefix_cons_inv_1 _ _ _ _ Hp) as ->.
      exists pre. split; [done |]. apply IH. by eapply prefix_cons_inv_2.
Qed.

Module TernarySearchTreeFacts.
Import TernarySearchTree.

Lemma findSubstr_true tr u :
  findSubstr tr u = true ↔
  absolute (path u) = true ∧ ∃ k, k ∈ roots tr ∧ k `prefix_of` key tr u.
Proof.
  unfold findSubstr. rewrite andb_true_iff, existsb_exists.
  split; intros [Ha (k & Hk1 & Hk2)]; (split; [done |]); exists k.
  - apply bool_decide_eq_true in Hk2. apply list_elem_of_In, elem_of_prefixes in Hk1. done.
  - split; [apply list_elem_of_In, elem_of_prefixes; tauto |].
    apply bool_decide_eq_true; tauto.
Qed.

Lemma get_true tr u : get tr u = true ↔ key tr u ∈ roots tr.
Proof. unfold get. apply bool_decide_eq_true. Qed.

Lemma get_false tr u : get tr u = false ↔ key tr u ∉ roots tr.
Proof. unfold get. apply bool_decide_eq_false. Qed.

(** A descendant of a path has the segments of the path as a prefix. *)
Lemma normalize_descendant ic r rest :
  normalize ic r `prefix_of` normalize ic (r +:+ String sep rest).
Proof.
  unfold normalize. destruct ic.
  - rewrite toLowerCase_app.
    change (toLowerCase (String sep rest)) with (String sep (toLowerCase rest)).
    rewrite segments_app_sep. by apply prefix_app_r.
  - rewrite segments_app_sep. by apply prefix_app_r.
Qed.

(** A path that continues the last segment of a root without a
    separator does not have the segments of the root as a prefix. *)
Lemma segments_no_boundary r0 d c rest :
  is_sep d = false → is_sep c = false →
  ¬ segments (r0 +:+ String d "") `prefix_of`
    segments ((r0 +:+ String d "") +:+ String c rest).
Proof.
  intros Hd Hc.
  destruct (split_app r0 (String d "")) as (la0 & x0 & y0 & lb0 & _ & Hb0 & Hr).
  simpl in Hb0. rewrite Hd in Hb0. injection Hb0 as <- <-.
  destruct (split_app (r0 +:+ String d "") (String c rest))
    as (la & x & y & lb & Ha & Hb & Hab).
  rewrite Hr in Ha. simpl in Ha. apply app_inj_tail in Ha as [<- <-].
  assert (∃ y', y = String c y') as [y' ->].
  { simpl in Hb. rewrite Hc in Hb. destruct (split rest); injection Hb as <- <-; eauto. }
  unfold segments. rewrite Hab, Hr. rewrite !List.filter_app. simpl.
  assert (nonempty (x0 +:+ String d "") = true) as -> by (by destruct x0).
  assert (nonempty ((x0 +:+ String d "") +:+ String c y') = true) as ->
    by (by destruct x0).
  intros [k Hk]. rewrite <- !app_assoc in Hk. apply app_inv_head in Hk.
  simpl in Hk. injection Hk as Hk _.
  symmetry in Hk. by apply append_self_inv in Hk.
Qed.

End TernarySearchTreeFacts.

(** ** The store lookup *)

Section StoreLookup.
Import TernarySearchTree TernarySearchTreeFacts.

Lemma findSubstr_set_other tr r u :
  ¬ key tr r `prefix_of` key tr u →
  findSubstr (set tr r) u = findSubstr tr u.
Proof.
  intros Hn. apply Bool.eq_true_iff_eq. rewrite !findSubstr_true.
  split; intros [Ha (k & Hk & Hp)]; (split; [done |]); exists k; simpl in *.
  - split; [| done]. apply elem_of_union in Hk as [Hk | Hk]; [| done].
    apply elem_of_singleton in Hk as ->. done.
  - split; [| done]. apply elem_of_union. by right.
Qed.

Lemma findSubstr_forUris ic u : findSubstr (forUris ic) u = false.
Proof.
  apply not_true_is_false. intros (_ & k & Hk & _)%findSubstr_true.
  by apply elem_of_empty in Hk.
Qed.

Lemma findSubstr_get tr r u :
  get tr r = true → absolute (path u) = true →
  key tr r `prefix_of` key tr u → findSubstr tr u = true.
Proof.
  intros Hg Ha Hp. apply findSubstr_true. split; [done |].
  exists (key tr r). split; [by apply get_true | done].
Qed.

(** C2. The store lookup ([findCoveringRoot], [validRoots.findSubstr] in
    the handlers) is true for every well-formed path that equals a
    stored root or descends from it by path segments; a root [r] gives
    no cover to a path that only continues the last segment of [r]
    without a separator (root [/a/b], path [/a/bc]); and the lookup is
    false for every empty or malformed path. *)
Theorem findCoveringRoot_segment_boundaries :
  (∀ tr r u rest,
      get tr r = true → absolute (path u) = true →
      path u = path r ∨ path u = path r +:+ String sep rest →
      findSubstr tr u = true)
  ∧ (∀ tr r u r0 d c rest,
      path r = r0 +:+ String d "" → is_sep d = false → is_sep c = false →
      path u = path r +:+ String c rest →
      findSubstr (set tr r) u = findSubstr tr u
      ∧ findSubstr (set (forUris (ignorePathCasing tr)) r) u = false)
  ∧ (∀ ic, findSubstr (set (forUris ic) (mkURI "file" "" "/a/b" "" ""))
                      (mkURI "file" "" "/a/bc" "" "") = false)
  ∧ (∀ tr u, path u = "" ∨ absolute (path u) = false → findSubstr tr u = false).
Proof.
  split; [| split; [| split]].
  - intros tr r u rest Hg Ha [Hp | Hp]; apply (findSubstr_get tr r u Hg Ha);
      unfold key; rewrite Hp; [done | apply normalize_descendant].
  - intros tr r u r0 d c rest Hr Hd Hc Hu.
    assert (¬ normalize (ignorePathCasing tr) (path r)
              `prefix_of` normalize (ignorePathCasing tr) (path u)) as Hn.
    { unfold normalize. rewrite Hu, Hr. destruct (ignorePathCasing tr).
      - rewrite !toLowerCase_app.
        change (toLowerCase (String d "")) with (String (lower_ascii d) "").
        change (toLowerCase (String c rest))
          with (String (lower_ascii c) (toLowerCase rest)).
        apply segments_no_boundary; by rewrite lower_ascii_sep.
      - by apply segments_no_boundary. }
    split; [by apply findSubstr_set_other |].
    rewrite findSubstr_set_other by done. apply findSubstr_forUris.
  - by intros [].
  - intros tr u [Hu | Hu]; unfold findSubstr; rewrite Hu; done.
Qed.

Lemma findCoveringRoot_segment_boundaries_witness :
  let tr := set (forUris false) (mkURI "file" "" "/a/b" "" "") in
  findSubstr tr (mkURI "file" "" "/a/b/c.js" "" "") = true
  ∧ findSubstr (set (forUris false) (mkURI "file" "" "/a/b" "" ""))
               (mkURI "file" "" "/a/bc" "" "")
    = findSubstr (forUris false) (mkURI "file" "" "/a/bc" "" "")
  ∧ findSubstr tr (mkURI "file" "" "a/b" "" "") = false.
Proof.
  destruct findCoveringRoot_segment_boundaries as (Hin & Hout & _ & Hbad).
  split; [| split].
  - apply (Hin _ (mkURI "file" "" "/a/b" "" "") _ "c.js");
      [reflexivity | reflexivity | right; reflexivity].
  - apply (Hout (forUris false) (mkURI "file" "" "/a/b" "" "") _
             "/a/" "b"%char "c"%char ""); reflexivity.
  - apply Hbad. right. reflexivity.
Defined.

Lemma prefix_same_length {A} (l l' k : list A) :
  length l = length l' → l `prefix_of` l' ++ k → l = l'.
Proof.
  intros Hlen [k' Hk]. symmetry in Hk. by apply app_inj_1 in Hk as [? _].
Qed.

(** C8. The store folds the case of paths exactly when it is built to
    ignore path casing, which the handler asks for on every platform but
    Linux.  When it does, a root [R] covers [lower(R) + "/x"]; when it
    does not and the case of [R] differs from [lower(R)], [R] gives no
    cover to [lower(R) + "/x"].  The folding at insert and at lookup is
    the same function. *)
Theorem case_folding_by_platform `{Host} :
  (∀ isLinux env,
      ignorePathCasing (validRoots (constructor isLinux env)) = negb isLinux)
  ∧ (∀ tr R u x,
      ignorePathCasing tr = true → absolute (path R) = true →
      path u = toLowerCase (path R) +:+ String sep x →
      findSubstr (set tr R) u = true)
  ∧ (∀ tr R u x,
      ignorePathCasing tr = false → toLowerCase (path R) ≠ path R →
      path u = toLowerCase (path R) +:+ String sep x →
      findSubstr (set tr R) u = findSubstr tr u)
  ∧ (∀ tr R u, key (set tr R) u = normalize (ignorePathCasing tr) (path u)
               ∧ key tr R = normalize (ignorePathCasing tr) (path R)).
Proof.
  repeat split.
  - intros tr R u x Hic Ha Hu.
    apply (findSubstr_get (set tr R) R u).
    + apply get_true. simpl. apply elem_of_union. left. by apply elem_of_singleton.
    + rewrite Hu. apply absolute_app. by rewrite absolute_toLowerCase.
    + unfold key. simpl. rewrite Hic, Hu. unfold normalize.
      rewrite toLowerCase_app, toLowerCase_idem.
      change (toLowerCase (String sep x)) with (String sep (toLowerCase x)).
      rewrite segments_app_sep. by apply prefix_app_r.
  - intros tr R u x Hic Hne Hu. apply findSubstr_set_other.
    unfold key, normalize. rewrite Hic, Hu, segments_app_sep, segments_toLowerCase.
    intros Hp. apply prefix_same_length in Hp; [| by rewrite length_fmap].
    by apply segments_lower_fixed in Hp.
Qed.

Lemma case_folding_by_platform_witness :
  findSubstr (set (forUris true) (mkURI "file" "" "/Users/Me/Ext" "" ""))
             (mkURI "file" "" "/users/me/ext/x" "" "") = true
  ∧ findSubstr (set (forUris false) (mkURI "file" "" "/Users/Me/Ext" "" ""))
               (mkURI "file" "" "/users/me/ext/x" "" "")
    = findSubstr (forUris false) (mkURI "file" "" "/users/me/ext/x" "" "").
Proof.
  destruct (case_folding_by_platform (H := posix_host)) as (_ & Hfold & Hkeep & _).
  split.
  - apply (Hfold _ (mkURI "file" "" "/Users/Me/Ext" "" "") _ "x"); reflexivity.
  - apply (Hkeep _ (mkURI "file" "" "/Users/Me/Ext" "" "") _ "x");
      [reflexivity | discriminate | reflexivity].
Defined.

End StoreLookup.

(** ** The request arbiter *)

Section Arbiter.
Context `{Host}.

Lemma handleFileRequest_inactive request this :
  snd (handleFileRequest false request this)
  = checked_trace Schemas.file this (URI_parse (url request)) (url request).
Proof.
  unfold handleFileRequest, checked_trace, findCoveringRoot, isAllowed.
  unfold mbind, Handler_bind, validRoots_findSubstr, validExtensions_has. simpl.
  destruct (TernarySearchTree.findSubstr _ _); [done |].
  by destruct (bool_decide _).
Qed.

Lemma handleFileRequest_active request this :
  snd (handleFileRequest true request this)
  = [LogError ("Refused to load resource " +:+ fsPath (URI_parse (url request))
               +:+ " from " +:+ Schemas.file +:+ ": protocol (original URL: "
               +:+ url request +:+ ")");
     Callback (Error ABORTED)].
Proof. reflexivity. Qed.

Lemma handleResourceRequest_trace request this :
  snd (handleResourceRequest request this)
  = checked_trace Schemas.vscodeFileResource this
      (asFileUri (URI_parse (url request))) (url request).
Proof.
  unfold handleResourceRequest, checked_trace, findCoveringRoot, isAllowed.
  unfold mbind, Handler_bind, validRoots_findSubstr, validExtensions_has. simpl.
  destruct (TernarySearchTree.findSubstr _ _); [done |].
  by destruct (bool_decide _).
Qed.

Lemma checked_trace_arbitrates tag this fileUri original :
  arbitrates this fileUri (checked_trace tag this fileUri original).
Proof.
  unfold arbitrates, checked_trace, decision.
  destruct (findCoveringRoot this fileUri) eqn:Hc;
    [| destruct (isAllowed this (extname fileUri)) eqn:Ha];
    (split; [done | split; [done | split; [done |]]]);
    intros pre e post Ht.
  - destruct pre as [|? [|? [|? ?]]]; simpl in Ht; simplify_eq.
  - destruct pre as [|? [|? [|? [|? ?]]]]; simpl in Ht; simplify_eq.
    split; [| done]. apply list_elem_of_singleton. done.
  - destruct pre as [|? [|? [|? [|? [|? ?]]]]]; simpl in Ht; simplify_eq.
    split; [| done]. apply list_elem_of_singleton. done.
Qed.

(** C1. A native-file request with prefer-browser-code-load inactive,
    and an app-resource request whatever that flag is (its URI first
    mapped to the native-file URI), are decided alike: covered by a
    stored root, [Serve(path)]; else extension in the allow-list,
    [Serve(path)]; else one error log entry and [Deny(ABORTED)].  The
    root check comes first. *)
Theorem shared_decision_procedure (this : FileProtocolHandler)
    (request : ProtocolRequest) :
  arbitrates this (URI_parse (url request))
    (snd (handleFileRequest false request this))
  ∧ arbitrates this (asFileUri (URI_parse (url request)))
      (snd (handleResourceRequest request this)).
Proof.
  rewrite handleFileRequest_inactive, handleResourceRequest_trace.
  split; apply checked_trace_arbitrates.
Qed.


Lemma checked_trace_resolves_once tag this u o :
  resolves_once (checked_trace tag this u o).
Proof.
  unfold checked_trace, resolves_once.
  destruct (findCoveringRoot this u); [| destruct (isAllowed this (extname u))];
    eexists; repeat split.
Qed.

(** Over collaborators that always return, each handler calls the
    callback exactly once, as its last act, and the only error it passes
    is ABORTED, -3. *)
Lemma returning_handlers_resolve_once (flag : bool) (this : FileProtocolHandler)
    (request : ProtocolRequest) :
  resolves_once (snd (handleFileRequest flag request this))
  ∧ resolves_once (snd (handleResourceRequest request this)).
Proof.
  split.
  - destruct flag.
    + rewrite handleFileRequest_active. eexists. repeat split.
    + rewrite handleFileRequest_inactive. apply checked_trace_resolves_once.
  - rewrite handleResourceRequest_trace. apply checked_trace_resolves_once.
Qed.

End Arbiter.

(** ** Invariants of the grants *)

Section GrantFacts.

Lemma addValidRoot_present root s :
  rootkey s root ∈ stored s → addValidRoot root s = (Disposable_None, s).
Proof.
  intros Hin. unfold addValidRoot.
  by rewrite (proj2 (TernarySearchTreeFacts.get_true _ _) Hin).
Qed.

Lemma addValidRoot_absent root s d s' :
  rootkey s root ∉ stored s → addValidRoot root s = (d, s') →
  d = toDisposable (allocated s) root
  ∧ stored s' = {[ rootkey s root ]} ∪ stored s
  ∧ disposed s' = disposed s ∧ allocated s' = S (allocated s).
Proof.
  intros Hout. unfold addValidRoot.
  rewrite (proj2 (TernarySearchTreeFacts.get_false _ _) Hout). simpl.
  by intros [= <- <-].
Qed.

Lemma rootkey_addValidRoot root s d s' r :
  addValidRoot root s = (d, s') → rootkey s' r = rootkey s r.
Proof.
  unfold addValidRoot.
  destruct (negb _); intros [= <- <-]; reflexivity.
Qed.

Lemma listeners_addValidRoot root s d s' :
  addValidRoot root s = (d, s') → listeners s' = listeners s.
Proof.
  unfold addValidRoot.
  destruct (negb _); intros [= <- <-]; reflexivity.
Qed.

Lemma validExtensions_addValidRoot root s d s' :
  addValidRoot root s = (d, s') →
  validExtensions (handler s') = validExtensions (handler s).
Proof.
  unfold addValidRoot.
  destruct (negb _); intros [= <- <-]; reflexivity.
Qed.

Lemma dispose_spent c root s :
  c ∈ disposed s → dispose (toDisposable c root) s = s.
Proof. intros Hc. simpl. by rewrite bool_decide_eq_true_2. Qed.

Lemma dispose_unspent c root s :
  c ∉ disposed s →
  stored (dispose (toDisposable c root) s) = stored s ∖ {[ rootkey s root ]}
  ∧ disposed (dispose (toDisposable c root) s) = {[ c ]} ∪ disposed s.
Proof. intros Hc. simpl. by rewrite bool_decide_eq_false_2. Qed.

Lemma rootkey_dispose d s r : rootkey (dispose d s) r = rootkey s r.
Proof. destruct d; simpl; [done |]. by destruct (bool_decide _). Qed.

Lemma allocated_dispose d s : allocated (dispose d s) = allocated s.
Proof. destruct d; simpl; [done |]. by destruct (bool_decide _). Qed.

Lemma listeners_dispose d s : listeners (dispose d s) = listeners s.
Proof. destruct d; simpl; [done |]. by destruct (bool_decide _). Qed.

Lemma validExtensions_dispose d s :
  validExtensions (handler (dispose d s)) = validExtensions (handler s).
Proof. destruct d; simpl; [done |]. by destruct (bool_decide _). Qed.

Lemma stored_dispose_subseteq d s : stored (dispose d s) ⊆ stored s.
Proof.
  destruct d as [|c root]; [done |].
  destruct (decide (c ∈ disposed s)) as [Hc | Hc].
  - by rewrite dispose_spent.
  - destruct (dispose_unspent c root s Hc) as [-> _]. set_solver.
Qed.

Lemma disposed_dispose_mono d s : disposed s ⊆ disposed (dispose d s).
Proof.
  destruct d as [|c root]; [done |].
  destruct (decide (c ∈ disposed s)) as [Hc | Hc].
  - by rewrite dispose_spent.
  - destruct (dispose_unspent c root s Hc) as [_ ->]. set_solver.
Qed.

(** A revoke changes the store by at most the root of its handle. *)
Lemma stored_dispose_frame d s k :
  (∀ c root, d = toDisposable c root → k ≠ rootkey s root) →
  k ∈ stored (dispose d s) ↔ k ∈ stored s.
Proof.
  intros Hk. destruct d as [|c root]; [done |].
  destruct (decide (c ∈ disposed s)) as [Hc | Hc].
  - by rewrite dispose_spent.
  - destruct (dispose_unspent c root s Hc) as [-> _].
    specialize (Hk c root eq_refl). set_solver.
Qed.

End GrantFacts.

Section GrantInvariant.
Variable boot : gset (list string).

Lemma Granted_subseteq s hs hs' : hs' ⊆ hs → Granted boot s hs → Granted boot s hs'.
Proof.
  intros Hsub [Hb Hs Hc Hr Hu].
  split; [done | done | | |]; intros; eauto.
Qed.

Lemma Granted_addValidRoot root s hs d s' :
  Granted boot s hs → addValidRoot root s = (d, s') → Granted boot s' (hs ++ [d]).
Proof.
  intros HG Hadd.
  destruct (decide (rootkey s root ∈ stored s)) as [Hin | Hout].
  - rewrite (addValidRoot_present _ _ Hin) in Hadd. injection Hadd as <- <-.
    destruct HG as [Hb Hs Hc Hr Hu].
    split; [done | done | | |].
    + intros c r [Hc' | Hc']%elem_of_app; [eauto |].
      by apply list_elem_of_singleton in Hc'.
    + intros c r [Hc' | Hc']%elem_of_app; [eauto |].
      by apply list_elem_of_singleton in Hc'.
    + intros c1 r1 c2 r2 [H1 | H1]%elem_of_app [H2 | H2]%elem_of_app;
        try (by apply list_elem_of_singleton in H1);
        try (by apply list_elem_of_singleton in H2).
      eauto.
  - pose proof (λ r, rootkey_addValidRoot _ _ _ _ r Hadd) as Hkey.
    destruct (addValidRoot_absent _ _ _ _ Hout Hadd) as (-> & Hst & Hdis & Hal).
    destruct HG as [Hb Hs Hc Hr Hu].
    split.
    + rewrite Hst. set_solver.
    + intros c. rewrite Hdis, Hal. intros Hc'%Hs. lia.
    + intros c r [Hc' | Hc']%elem_of_app; rewrite Hal.
      * apply Hc in Hc'. lia.
      * apply list_elem_of_singleton in Hc'. injection Hc' as -> ->. lia.
    + intros c r [Hc' | Hc']%elem_of_app; rewrite Hdis, Hkey, Hst.
      * intros Hn. destruct (Hr c r Hc' Hn). set_solver.
      * apply list_elem_of_singleton in Hc'. injection Hc' as -> ->.
        intros _. split; [set_solver |]. intros Hboot. apply Hout. by apply Hb.
    + intros c1 r1 c2 r2 [H1 | H1]%elem_of_app [H2 | H2]%elem_of_app;
        rewrite Hdis, !Hkey.
      * eauto.
      * apply list_elem_of_singleton in H2. injection H2 as -> ->.
        intros Hn _ Heq. destruct (Hr c1 r1 H1 Hn) as [Hin _].
        rewrite Heq in Hin. done.
      * apply list_elem_of_singleton in H1. injection H1 as -> ->.
        intros _ Hn Heq. destruct (Hr c2 r2 H2 Hn) as [Hin _].
        rewrite <- Heq in Hin. done.
      * apply list_elem_of_singleton in H1. injection H1 as -> ->.
        apply list_elem_of_singleton in H2. injection H2 as -> ->. done.
Qed.

Lemma Granted_dispose d s hs :
  Granted boot s hs → d ∈ hs → Granted boot (dispose d s) hs.
Proof.
  intros HG Hd. destruct d as [|c root]; [done |].
  destruct (decide (c ∈ disposed s)) as [Hc | Hc].
  { by rewrite dispose_spent. }
  pose proof (rootkey_dispose (toDisposable c root) s) as Hkey.
  pose proof (allocated_dispose (toDisposable c root) s) as Hal.
  destruct (dispose_unspent c root s Hc) as [Hst Hdis].
  destruct HG as [Hb Hs Hcell Hr Hu].
  split.
  - rewrite Hst. destruct (Hr c root Hd Hc). set_solver.
  - intros c'. rewrite Hdis, Hal. intros [->%elem_of_singleton | ?]%elem_of_union; eauto.
  - intros c' r Hin. rewrite Hal. eauto.
  - intros c' r Hin. rewrite Hdis, Hkey, Hst. intros Hn.
    assert (c' ∉ disposed s) as Hn' by set_solver.
    destruct (Hr c' r Hin Hn') as [Hin' Hnb]. split; [| done].
    apply elem_of_difference. split; [done |].
    intros Heq%elem_of_singleton.
    assert (c' = c) as -> by eauto. set_solver.
  - intros c1 r1 c2 r2 H1 H2. rewrite Hdis, !Hkey. intros Hn1 Hn2.
    apply Hu; [done | done | set_solver | set_solver].
Qed.

Lemma Held_Permutation s hs hs' : hs ≡ₚ hs' → Held boot s hs → Held boot s hs'.
Proof.
  intros Hp [HG Hu Hn]. split.
  - eapply Granted_subseteq; [| done]. intros x. by rewrite Hp.
  - intros c r. rewrite <- Hp. eauto.
  - unfold cells. by rewrite <- Hp.
Qed.

Lemma Held_with_listeners s ls hs : Held boot s hs → Held boot (with_listeners s ls) hs.
Proof.
  intros [[Hb Hs Hc Hr Hu] Hun Hn].
  split; [split; [exact Hb | exact Hs | exact Hc | exact Hr | exact Hu]
         | exact Hun | exact Hn].
Qed.

Lemma Held_addValidRoot root s hs d s' :
  Held boot s hs → addValidRoot root s = (d, s') → Held boot s' (hs ++ [d]).
Proof.
  intros [HG Hu Hn] Hadd. split.
  - by eapply Granted_addValidRoot.
  - destruct (decide (rootkey s root ∈ stored s)) as [Hin | Hout].
    + rewrite (addValidRoot_present _ _ Hin) in Hadd. injection Hadd as <- <-.
      intros c r [Hc' | Hc']%elem_of_app; [eauto |].
      by apply list_elem_of_singleton in Hc'.
    + destruct (addValidRoot_absent _ _ _ _ Hout Hadd) as (-> & Hst & Hdis & Hal).
      rewrite Hdis. intros c r [Hc' | Hc']%elem_of_app; [eauto |].
      apply list_elem_of_singleton in Hc'. injection Hc' as -> ->.
      intros Hc'%(granted_spent _ _ _ HG). lia.
  - unfold cells. rewrite omap_app. apply NoDup_app. split; [done |].
    destruct (decide (rootkey s root ∈ stored s)) as [Hin | Hout].
    + rewrite (addValidRoot_present _ _ Hin) in Hadd. injection Hadd as <- <-.
      simpl. split; [| constructor]. intros x _ Hx. by apply elem_of_nil in Hx.
    + destruct (addValidRoot_absent _ _ _ _ Hout Hadd) as (-> & _).
      simpl. split; [| apply NoDup_singleton].
      intros x Hx ->%list_elem_of_singleton.
      apply list_elem_of_omap in Hx as (h & Hh & Hcell).
      destruct h as [|c r]; simplify_eq/=.
      apply (granted_cell _ _ _ HG) in Hh. lia.
Qed.

Lemma Held_addValidRoots roots s hs ds s' :
  Held boot s hs → addValidRoots roots s = (ds, s') → Held boot s' (hs ++ ds).
Proof.
  revert s hs ds s'. induction roots as [|root roots IH]; intros s hs ds s' HH; simpl.
  - intros [= <- <-]. by rewrite app_nil_r.
  - destruct (addValidRoot root s) as [d s1] eqn:H1.
    destruct (addValidRoots roots s1) as [ds' s2] eqn:H2.
    intros [= <- <-]. rewrite cons_middle, (assoc_L (++) hs [d] ds').
    eapply IH; [| done]. by eapply Held_addValidRoot.
Qed.

Lemma Held_dispose_all ds s rest :
  Held boot s (ds ++ rest) → Held boot (dispose_all ds s) rest.
Proof.
  revert s. induction ds as [|d ds IH]; intros s HH; [done |].
  simpl. apply IH. destruct HH as [HG Hu Hn]. split.
  - eapply Granted_subseteq; [| apply Granted_dispose; [done |]].
    + intros x Hx. by right.
    + by left.
  - intros c r Hin. destruct d as [|c0 r0]; [by eapply Hu; right |].
    assert (c ∉ disposed s) as Hc by (by eapply Hu; right).
    destruct (dispose_unspent c0 r0 s) as [_ ->]; [eapply Hu; by left |].
    intros [->%elem_of_singleton | ?]%elem_of_union; [| done].
    simpl in Hn. apply NoDup_cons in Hn as [Hn _]. apply Hn.
    apply list_elem_of_omap. by exists (toDisposable c0 r).
  - destruct d; simpl in Hn; [done |]. by apply NoDup_cons in Hn as [_ ?].
Qed.

End GrantInvariant.

(** ** The grants of the windows *)

Section WindowGrants.
Context `{Host}.

Lemma addValidRoots_app roots1 roots2 s :
  addValidRoots (roots1 ++ roots2) s
  = let '(ds1, s1) := addValidRoots roots1 s in
    let '(ds2, s2) := addValidRoots roots2 s1 in
    (ds1 ++ ds2, s2).
Proof.
  revert s. induction roots1 as [|root roots1 IH]; intros s; simpl.
  - by destruct (addValidRoots roots2 s).
  - destruct (addValidRoot root s) as [d s1]. rewrite IH.
    destruct (addValidRoots roots1 s1) as [ds1 s2].
    by destruct (addValidRoots roots2 s2).
Qed.

(** The listener adds the requested roots and subscribes their handles
    to the window, or does nothing when the window has neither path. *)
Lemma onDidSignalReadyWindow_requested window s :
  (requested window = [] ∧ onDidSignalReadyWindow window s = s)
  ∨ ∃ ds s', addValidRoots (requested window) s = (ds, s')
             ∧ onDidSignalReadyWindow window s
               = with_listeners s' (listeners s' ++ [(id window, ds)]).
Proof.
  unfold onDidSignalReadyWindow, requested.
  destruct (config window ≫= extensionDevelopmentPath) as [paths|]; simpl.
  - right. rewrite addValidRoots_app.
    destruct (addValidRoots (URI_file <$> paths) s) as [ds1 s1].
    destruct (config window ≫= extensionTestsPath) as [[|c p]|]; simpl;
      [| destruct (addValidRoot _ _) as [d s2] |]; eauto.
  - destruct (config window ≫= extensionTestsPath) as [[|c p]|]; simpl;
      [by left | right | by left].
    destruct (addValidRoot _ _) as [d s2]. eauto.
Qed.

Lemma listeners_addValidRoots roots s ds s' :
  addValidRoots roots s = (ds, s') → listeners s' = listeners s.
Proof.
  revert s ds s'. induction roots as [|root roots IH]; intros s ds s'; simpl.
  - by intros [= <- <-].
  - destruct (addValidRoot root s) as [d s1] eqn:H1.
    destruct (addValidRoots roots s1) as [ds' s2] eqn:H2.
    intros [= <- <-]. rewrite (IH _ _ _ H2). by eapply listeners_addValidRoot.
Qed.

Lemma rootkey_addValidRoots roots s ds s' r :
  addValidRoots roots s = (ds, s') → rootkey s' r = rootkey s r.
Proof.
  revert s ds s'. induction roots as [|root roots IH]; intros s ds s'; simpl.
  - by intros [= <- <-].
  - destruct (addValidRoot root s) as [d s1] eqn:H1.
    destruct (addValidRoots roots s1) as [ds' s2] eqn:H2.
    intros [= <- <-]. rewrite (IH _ _ _ H2). by eapply rootkey_addValidRoot.
Qed.

Lemma validExtensions_addValidRoots roots s ds s' :
  addValidRoots roots s = (ds, s') →
  validExtensions (handler s') = validExtensions (handler s).
Proof.
  revert s ds s'. induction roots as [|root roots IH]; intros s ds s'; simpl.
  - by intros [= <- <-].
  - destruct (addValidRoot root s) as [d s1] eqn:H1.
    destruct (addValidRoots roots s1) as [ds' s2] eqn:H2.
    intros [= <- <-]. rewrite (IH _ _ _ H2). by eapply validExtensions_addValidRoot.
Qed.

Lemma rootkey_dispose_all ds s r : rootkey (dispose_all ds s) r = rootkey s r.
Proof.
  revert s. induction ds as [|d ds IH]; intros s; simpl; [done |].
  by rewrite IH, rootkey_dispose.
Qed.

Lemma listeners_dispose_all ds s : listeners (dispose_all ds s) = listeners s.
Proof.
  revert s. induction ds as [|d ds IH]; intros s; simpl; [done |].
  by rewrite IH, listeners_dispose.
Qed.

Lemma validExtensions_dispose_all ds s :
  validExtensions (handler (dispose_all ds s)) = validExtensions (handler s).
Proof.
  revert s. induction ds as [|d ds IH]; intros s; simpl; [done |].
  by rewrite IH, validExtensions_dispose.
Qed.

Lemma stored_dispose_all_subseteq ds s : stored (dispose_all ds s) ⊆ stored s.
Proof.
  revert s. induction ds as [|d ds IH]; intros s; simpl; [done |].
  etrans; [apply IH | apply stored_dispose_subseteq].
Qed.

Lemma rootkey_step s sig r : rootkey (step s sig) r = rootkey s r.
Proof.
  assert (∀ w, rootkey (onDidCloseOrDestroy w s) r = rootkey s r) as Hfire.
  { intros w. unfold onDidCloseOrDestroy. by rewrite rootkey_dispose_all. }
  destruct sig as [window | w | w]; simpl; [| done | done].
  destruct (onDidSignalReadyWindow_requested window s)
    as [[_ ->] | (ds & s' & Hadd & ->)]; [done |].
  by rewrite <- (rootkey_addValidRoots _ _ _ _ r Hadd).
Qed.

Lemma run_cons sig sigs s : run (sig :: sigs) s = run sigs (step s sig).
Proof. reflexivity. Qed.

Lemma run_app sigs1 sigs2 s : run (sigs1 ++ sigs2) s = run sigs2 (run sigs1 s).
Proof. apply foldl_app. Qed.

Lemma rootkey_run sigs s r : rootkey (run sigs s) r = rootkey s r.
Proof.
  revert s. induction sigs as [|sig sigs IH]; intros s; [done |].
  by rewrite run_cons, IH, rootkey_step.
Qed.

Lemma validExtensions_step s sig :
  validExtensions (handler (step s sig)) = validExtensions (handler s).
Proof.
  assert (∀ w, validExtensions (handler (onDidCloseOrDestroy w s))
               = validExtensions (handler s)) as Hfire.
  { intros w. unfold onDidCloseOrDestroy. by rewrite validExtensions_dispose_all. }
  destruct sig as [window | w | w]; simpl; [| done | done].
  destruct (onDidSignalReadyWindow_requested window s)
    as [[_ ->] | (ds & s' & Hadd & ->)]; [done |].
  by rewrite <- (validExtensions_addValidRoots _ _ _ _ Hadd).
Qed.

Lemma validExtensions_run sigs s :
  validExtensions (handler (run sigs s)) = validExtensions (handler s).
Proof.
  revert s. induction sigs as [|sig sigs IH]; intros s; [done |].
  by rewrite run_cons, IH, validExtensions_step.
Qed.

Lemma live_snoc s ls w ds :
  live (with_listeners s (ls ++ [(w, ds)])) = mjoin (snd <$> ls) ++ ds.
Proof.
  unfold live. simpl. rewrite fmap_app, join_app. simpl. by rewrite app_nil_r.
Qed.

Lemma live_split window s :
  live s ≡ₚ mjoin (snd <$> filter (λ l, l.1 = window) (listeners s))
            ++ mjoin (snd <$> filter (λ l, l.1 ≠ window) (listeners s)).
Proof.
  unfold live. rewrite <- join_app, <- fmap_app.
  by rewrite (filter_app_complement (λ l, l.1 = window) (listeners s)).
Qed.

Section Invariant.
Variable boot : gset (list string).

Lemma Held_onDidSignalReadyWindow window s :
  Held boot s (live s) →
  Held boot (onDidSignalReadyWindow window s)
       (live (onDidSignalReadyWindow window s)).
Proof.
  intros HH.
  destruct (onDidSignalReadyWindow_requested window s)
    as [[_ ->] | (ds & s' & Hadd & ->)]; [done |].
  rewrite live_snoc, (listeners_addValidRoots _ _ _ _ Hadd).
  apply Held_with_listeners. by eapply Held_addValidRoots.
Qed.

Lemma Held_onDidCloseOrDestroy window s :
  Held boot s (live s) →
  Held boot (onDidCloseOrDestroy window s)
       (live (onDidCloseOrDestroy window s)).
Proof.
  intros HH. unfold onDidCloseOrDestroy.
  replace (live (dispose_all _ _))
    with (mjoin (snd <$> filter (λ l, l.1 ≠ window) (listeners s)))
    by (unfold live; by rewrite listeners_dispose_all).
  apply Held_dispose_all, Held_with_listeners.
  eapply Held_Permutation; [apply live_split | done].
Qed.

Lemma Held_step s sig :
  Held boot s (live s) → Held boot (step s sig) (live (step s sig)).
Proof.
  destruct sig; simpl;
    [apply Held_onDidSignalReadyWindow | apply Held_onDidCloseOrDestroy ..].
Qed.

Lemma Held_run sigs s :
  Held boot s (live s) → Held boot (run sigs s) (live (run sigs s)).
Proof.
  revert s. induction sigs as [|sig sigs IH]; intros s HH; [done |].
  apply IH. by apply Held_step.
Qed.

End Invariant.

Lemma Held_initial isLinux env :
  Held (initialRoots isLinux env) (initial isLinux env) [].
Proof.
  split; [split | |].
  - done.
  - intros c Hc. by apply elem_of_empty in Hc.
  - intros c r Hc. by apply elem_of_nil in Hc.
  - intros c r Hc. by apply elem_of_nil in Hc.
  - intros c1 r1 c2 r2 Hc. by apply elem_of_nil in Hc.
  - intros c r Hc. by apply elem_of_nil in Hc.
  - constructor.
Qed.

(** Every state the signals can reach satisfies the invariant. *)
Lemma Held_reachable isLinux env sigs :
  let s := run sigs (initial isLinux env) in
  Held (initialRoots isLinux env) s (live s).
Proof. apply Held_run, Held_initial. Qed.

End WindowGrants.

Section GrantScope.
Context `{Host}.

Lemma listener_survives window ds s sig :
  (window, ds) ∈ listeners s → is_terminal window sig = false →
  (window, ds) ∈ listeners (step s sig).
Proof.
  intros Hin Hsig.
  assert (∀ w, w ≠ window → (window, ds) ∈ listeners (onDidCloseOrDestroy w s))
    as Hfire.
  { intros w Hw. unfold onDidCloseOrDestroy. rewrite listeners_dispose_all. simpl.
    apply list_elem_of_filter. split; [simpl; congruence | done]. }
  destruct sig as [w | w | w]; simpl in *.
  - destruct (onDidSignalReadyWindow_requested w s)
      as [[_ ->] | (ds' & s' & Hadd & ->)]; [done |].
    simpl. apply elem_of_app. left.
    by rewrite (listeners_addValidRoots _ _ _ _ Hadd).
  - apply Hfire. by apply bool_decide_eq_false in Hsig.
  - apply Hfire. by apply bool_decide_eq_false in Hsig.
Qed.

Lemma listener_survives_run window ds sigs s :
  (window, ds) ∈ listeners s →
  Forall (λ sig, is_terminal window sig = false) sigs →
  (window, ds) ∈ listeners (run sigs s).
Proof.
  revert s. induction sigs as [|sig sigs IH]; intros s Hin Hall; [done |].
  apply Forall_cons in Hall as [Hsig Hall].
  rewrite run_cons. apply IH; [| done]. by apply listener_survives.
Qed.

Lemma live_listener window ds d s :
  (window, ds) ∈ listeners s → d ∈ ds → d ∈ live s.
Proof.
  intros Hl Hd. unfold live. apply list_elem_of_join. exists ds.
  split; [done |]. apply list_elem_of_fmap. by exists (window, ds).
Qed.

(** The root of a handle that a listener still holds is stored. *)
Lemma held_root_stored boot window ds c r s :
  Held boot s (live s) → (window, ds) ∈ listeners s →
  toDisposable c r ∈ ds → rootkey s r ∈ stored s.
Proof.
  intros [HG Hu _] Hl Hd.
  pose proof (live_listener _ _ _ _ Hl Hd) as Hlive.
  by destruct (granted_root _ _ _ HG c r Hlive (Hu c r Hlive)).
Qed.

(** A requested root that is not stored gets a handle of its own. *)
Lemma addValidRoots_handle roots s ds s' r :
  addValidRoots roots s = (ds, s') → r ∈ roots → rootkey s r ∉ stored s →
  ∃ c r', toDisposable c r' ∈ ds ∧ rootkey s r' = rootkey s r.
Proof.
  revert s ds s'. induction roots as [|root roots IH]; intros s ds s' Hadd Hr Hout.
  { by apply elem_of_nil in Hr. }
  simpl in Hadd.
  destruct (addValidRoot root s) as [d s1] eqn:H1.
  destruct (addValidRoots roots s1) as [ds' s2] eqn:H2.
  injection Hadd as <- <-.
  pose proof (λ x, rootkey_addValidRoot _ _ _ _ x H1) as Hkey.
  destruct (decide (rootkey s root = rootkey s r)) as [Heq | Hne].
  - rewrite <- Heq in Hout.
    destruct (addValidRoot_absent _ _ _ _ Hout H1) as (-> & _).
    exists (allocated s), root. split; [by left | done].
  - apply elem_of_cons in Hr as [-> | Hr]; [done |].
    destruct (IH s1 ds' s2 H2 Hr) as (c & r' & Hin & Hk).
    + rewrite Hkey. intros Hin.
      destruct (decide (rootkey s root ∈ stored s)) as [Hp | Ha].
      * rewrite (addValidRoot_present _ _ Hp) in H1. by injection H1 as <- <-.
      * destruct (addValidRoot_absent _ _ _ _ Ha H1) as (_ & Hst & _).
        rewrite Hst in Hin. set_solver.
    + exists c, r'. split; [by right |]. by rewrite <- !Hkey.
Qed.

Lemma ready_grants window s r :
  r ∈ requested window → rootkey s r ∉ stored s →
  ∃ ds c r', (id window, ds) ∈ listeners (step s (DidSignalReadyWindow window))
             ∧ toDisposable c r' ∈ ds ∧ rootkey s r' = rootkey s r.
Proof.
  intros Hr Hout. simpl.
  destruct (onDidSignalReadyWindow_requested window s)
    as [[Hnil _] | (ds & s' & Hadd & ->)].
  { rewrite Hnil in Hr. by apply elem_of_nil in Hr. }
  destruct (addValidRoots_handle _ _ _ _ _ Hadd Hr Hout) as (c & r' & Hin & Hk).
  exists ds, c, r'. split; [| done].
  simpl. apply elem_of_app. right. by apply list_elem_of_singleton.
Qed.

(** Disposing a list of held handles removes the root of each. *)
Lemma dispose_all_removes boot ds rest c r s :
  Held boot s (ds ++ rest) → toDisposable c r ∈ ds →
  rootkey s r ∉ stored (dispose_all ds s).
Proof.
  revert s. induction ds as [|d ds IH]; intros s HH Hin.
  { by apply elem_of_nil in Hin. }
  simpl. apply elem_of_cons in Hin as [<- | Hin].
  - intros Hs. apply stored_dispose_all_subseteq in Hs.
    destruct (dispose_unspent c r s) as [Hst _].
    { eapply held_unspent; [done |]. by left. }
    rewrite Hst in Hs. set_solver.
  - rewrite <- (rootkey_dispose d s). apply IH; [| done].
    apply (Held_dispose_all boot [d] s (ds ++ rest) HH).
Qed.

Lemma terminal_revokes boot window ds c r s :
  Held boot s (live s) → (window, ds) ∈ listeners s → toDisposable c r ∈ ds →
  rootkey s r ∉ stored (onDidCloseOrDestroy window s).
Proof.
  intros HH Hl Hd. unfold onDidCloseOrDestroy.
  change (rootkey s r)
    with (rootkey (with_listeners s (filter (λ l, l.1 ≠ window) (listeners s))) r).
  eapply dispose_all_removes.
  - apply Held_with_listeners. eapply Held_Permutation; [apply live_split | done].
  - apply list_elem_of_join. exists ds. split; [done |].
    apply list_elem_of_fmap. exists (window, ds). split; [done |].
    by apply list_elem_of_filter.
Qed.

(** A root that the listener of a ready window had to add stays stored
    while no close or destroy of that window fires, and is removed by
    the first one that does. *)
Lemma grant_lifetime isLinux env history window r sigs :
  let s0 := run history (initial isLinux env) in
  let s1 := run sigs (step s0 (DidSignalReadyWindow window)) in
  r ∈ requested window → rootkey s0 r ∉ stored s0 →
  Forall (λ sig, is_terminal window.(id) sig = false) sigs →
  rootkey s1 r ∈ stored s1
  ∧ ∀ sig, is_terminal window.(id) sig = true →
      rootkey s1 r ∉ stored (step s1 sig).
Proof.
  intros s0 s1 Hr Hout Hsigs.
  destruct (ready_grants window s0 r Hr Hout) as (ds & c & r' & Hl & Hd & Hk).
  pose proof (listener_survives_run _ _ _ _ Hl Hsigs) as Hl1. fold s1 in Hl1.
  assert (Held (initialRoots isLinux env) s1 (live s1)) as HH.
  { unfold s1, s0. rewrite <- run_cons, <- run_app. apply Held_reachable. }
  assert (rootkey s1 r = rootkey s1 r') as ->.
  { unfold s1. by rewrite !rootkey_run, !rootkey_step. }
  split; [by eapply held_root_stored |].
  intros [w | w | w] Hsig; simpl in Hsig; [done | |];
    apply bool_decide_eq_true in Hsig as ->; by eapply terminal_revokes.
Qed.

End GrantScope.

Section GrantClaims.
Context `{Host}.
Import TernarySearchTree.

(** C4, as the code has it.  A root that consumer D's own grant added
    (it was not stored when D became ready) stays stored, and covers,
    when another consumer C closes or is destroyed, whatever else
    happened while D was alive. *)
Theorem independent_grants isLinux env history winD r between windowC sigC :
  let s0 := run history (initial isLinux env) in
  let s := step (run between (step s0 (DidSignalReadyWindow winD))) sigC in
  windowC ≠ winD.(id) →
  r ∈ requested winD →
  get (validRoots (handler s0)) r = false →
  Forall (λ sig, is_terminal winD.(id) sig = false) between →
  sigC = DidClose windowC ∨ sigC = DidDestroy windowC →
  get (validRoots (handler s)) r = true
  ∧ (absolute (path r) = true → findSubstr (validRoots (handler s)) r = true).
Proof.
  intros s0 s Hne Hr Hout Hbetween HsigC.
  assert (get (validRoots (handler s)) r = true) as Hget.
  { apply TernarySearchTreeFacts.get_true.
    apply TernarySearchTreeFacts.get_false in Hout.
    destruct (grant_lifetime isLinux env history winD r (between ++ [sigC]) Hr Hout)
      as [Hin _].
    - apply Forall_app. split; [done |]. apply Forall_singleton.
      destruct HsigC as [-> | ->]; simpl; by apply bool_decide_eq_false.
    - rewrite run_app in Hin. exact Hin. }
  split; [done |]. intros Ha.
  by apply (findSubstr_get _ r r).
Qed.

(** C5, as the code has it.  A root that the grant of a ready consumer
    added (it was not stored when the consumer became ready) is stored
    during the whole interval up to the consumer's first close or
    destroy signal, and is no longer a stored root once that signal has
    fired. *)
Theorem grant_scoped_to_window isLinux env history window r sigs :
  let s0 := run history (initial isLinux env) in
  let s1 := run sigs (step s0 (DidSignalReadyWindow window)) in
  r ∈ requested window →
  get (validRoots (handler s0)) r = false →
  Forall (λ sig, is_terminal window.(id) sig = false) sigs →
  get (validRoots (handler s1)) r = true
  ∧ ∀ sig, is_terminal window.(id) sig = true →
      get (validRoots (handler (step s1 sig))) r = false.
Proof.
  intros s0 s1 Hr Hout Hsigs.
  apply TernarySearchTreeFacts.get_false in Hout.
  destruct (grant_lifetime isLinux env history window r sigs Hr Hout Hsigs)
    as [Hin Hgone].
  split; [by apply TernarySearchTreeFacts.get_true |].
  intros sig Hsig. apply TernarySearchTreeFacts.get_false.
  specialize (Hgone sig Hsig). fold s0 s1 in Hgone.
  change (rootkey (step s1 sig) r ∉ stored (step s1 sig)).
  by rewrite rootkey_step.
Qed.

End GrantClaims.

(** C4 as stated does not hold when the two consumers were granted the
    same path: window 1 and then window 2 become ready with the
    development path [/dev/ext]; window 1 closes; window 2 is still
    subscribed, it asked for [/dev/ext], and [/dev/ext] is no longer
    covered. *)
Lemma shared_path_not_independent :
  let winC := dev_window 1 "/dev/ext" in
  let winD := dev_window 2 "/dev/ext" in
  let s := run (H := posix_host)
             [DidSignalReadyWindow winC; DidSignalReadyWindow winD; DidClose 1]
             (initial (H := posix_host) true test_env) in
  file_uri "/dev/ext" ∈ requested (H := posix_host) winD
  ∧ fst <$> listeners s = [2]
  ∧ TernarySearchTree.findSubstr (validRoots (handler s)) (file_uri "/dev/ext") = false.
Proof.
  split; [| split].
  - apply (bool_decide_unpack _). vm_compute. exact I.
  - vm_compute. reflexivity.
  - vm_compute. reflexivity.
Qed.

Lemma independent_grants_witness :
  let s := run (H := posix_host)
             [DidSignalReadyWindow (dev_window 2 "/dev/ext");
              DidSignalReadyWindow (dev_window 1 "/dev/ext");
              DidClose 1]
             (initial (H := posix_host) true test_env) in
  TernarySearchTree.get (validRoots (handler s)) (file_uri "/dev/ext") = true
  ∧ (absolute "/dev/ext" = true →
     TernarySearchTree.findSubstr (validRoots (handler s)) (file_uri "/dev/ext") = true).
Proof.
  apply (independent_grants (H := posix_host) true test_env []
           (dev_window 2 "/dev/ext") (file_uri "/dev/ext")
           [DidSignalReadyWindow (dev_window 1 "/dev/ext")] 1 (DidClose 1)).
  - simpl. lia.
  - apply (bool_decide_unpack _). vm_compute. exact I.
  - vm_compute. reflexivity.
  - repeat constructor.
  - left. reflexivity.
Defined.

(** C5 as stated does not hold for a grant of a path that was already
    stored: window 1 becomes ready with the development path [/dev/ext],
    window 2 with the tests path [/dev/ext]; window 1 is destroyed; no
    close or destroy of window 2 has fired, and the root of its grant is
    gone. *)
Lemma shared_path_revoked_early :
  let sigs := [DidSignalReadyWindow (tests_window 2 "/dev/ext"); DidDestroy 1] in
  let s := run (H := posix_host) sigs
             (run (H := posix_host) [DidSignalReadyWindow (dev_window 1 "/dev/ext")]
                  (initial (H := posix_host) true test_env)) in
  file_uri "/dev/ext" ∈ requested (H := posix_host) (tests_window 2 "/dev/ext")
  ∧ forallb (λ sig, negb (is_terminal 2 sig)) sigs = true
  ∧ TernarySearchTree.get (validRoots (handler s)) (file_uri "/dev/ext") = false.
Proof.
  split; [| split].
  - apply (bool_decide_unpack _). vm_compute. exact I.
  - vm_compute. reflexivity.
  - vm_compute. reflexivity.
Qed.

Lemma grant_scoped_to_window_witness :
  let s1 := run (H := posix_host)
              [DidSignalReadyWindow (dev_window 1 "/dev/one"); DidClose 1]
              (step (H := posix_host) (initial (H := posix_host) true test_env)
                    (DidSignalReadyWindow (tests_window 2 "/dev/two/test"))) in
  TernarySearchTree.get (validRoots (handler s1)) (file_uri "/dev/two/test") = true
  ∧ TernarySearchTree.get
      (validRoots (handler (step (H := posix_host) s1 (DidDestroy 2))))
      (file_uri "/dev/two/test") = false.
Proof.
  destruct (grant_scoped_to_window (H := posix_host) true test_env []
              (tests_window 2 "/dev/two/test") (file_uri "/dev/two/test")
              [DidSignalReadyWindow (dev_window 1 "/dev/one"); DidClose 1])
    as [Hin Hgone].
  - apply (bool_decide_unpack _). vm_compute. exact I.
  - vm_compute. reflexivity.
  - repeat constructor.
  - split; [exact Hin |]. apply Hgone. reflexivity.
Defined.

(** ** Grant and revoke, call by call *)

Section CallInvariant.
Variable boot : gset (list string).

Lemma Issued_call st c : Issued boot st → Issued boot (call st c).
Proof.
  destruct st as [s hs]. intros [HG Hinj]. destruct c as [root | n]; simpl in *.
  - destruct (addValidRoot root s) as [d s'] eqn:Hadd. split.
    { by eapply Granted_addValidRoot. }
    simpl. intros i j c r r' Hi Hj.
    assert (∀ k c0 r0, (hs ++ [d]) !! k = Some (toDisposable c0 r0) →
              (k < length hs ∧ hs !! k = Some (toDisposable c0 r0)
               ∧ c0 < allocated s)
              ∨ (k = length hs ∧ c0 = allocated s)) as Hcase.
    { intros k c0 r0 Hk. apply lookup_app_Some in Hk as [Hk | [Hlen Hk]].
      - left. split; [by eapply lookup_lt_Some |]. split; [done |].
        eapply (granted_cell _ _ _ HG). by eapply list_elem_of_lookup_2.
      - right. apply list_lookup_singleton_Some in Hk as [Hk Hd]. subst d.
        split; [lia |].
        destruct (decide (rootkey s root ∈ stored s)) as [Hin | Hout].
        + rewrite (addValidRoot_present _ _ Hin) in Hadd. simplify_eq.
        + destruct (addValidRoot_absent _ _ _ _ Hout Hadd) as (Hd & _).
          by simplify_eq. }
    destruct (Hcase _ _ _ Hi) as [(? & Hi' & ?) | [-> ?]],
             (Hcase _ _ _ Hj) as [(? & Hj' & ?) | [-> ?]]; try lia.
    by eapply Hinj.
  - destruct (hs !! n) as [d|] eqn:Hn; [| done]. split; [| done].
    simpl. apply Granted_dispose; [done |]. by eapply list_elem_of_lookup_2.
Qed.

Lemma Issued_calls cs st : Issued boot st → Issued boot (calls cs st).
Proof.
  revert st. induction cs as [|c cs IH]; intros st Hst; [done |].
  apply IH. by apply Issued_call.
Qed.

End CallInvariant.

Lemma disposed_call_mono st c : disposed st.1 ⊆ disposed (call st c).1.
Proof.
  destruct st as [s hs]. destruct c as [root | n]; simpl.
  - unfold addValidRoot. by destruct (negb _).
  - destruct (hs !! n); [apply disposed_dispose_mono | done].
Qed.

Lemma disposed_calls_mono cs st : disposed st.1 ⊆ disposed (calls cs st).1.
Proof.
  revert st. induction cs as [|c cs IH]; intros st; [done |].
  etrans; [apply disposed_call_mono | apply IH].
Qed.

Section RevokeClaims.
Context `{Host}.
Import TernarySearchTree.

(** C9. Granting a root that is already in the store returns the no-op
    handle and changes nothing.  A revoke removes at most the root of
    its handle and leaves every other entry as it was.  Through any
    sequence of grants and revokes, and through any sequence of window
    signals, the initial roots stay stored, and revoking one handle
    does not remove the root of a different grant that is still
    outstanding. *)
Theorem revoke_frame :
  (∀ s root, get (validRoots (handler s)) root = true →
             addValidRoot root s = (Disposable_None, s))
  ∧ (∀ s, dispose Disposable_None s = s)
  ∧ (∀ s d, stored (dispose d s) ⊆ stored s)
  ∧ (∀ s c root k, k ≠ rootkey s root →
       k ∈ stored (dispose (toDisposable c root) s) ↔ k ∈ stored s)
  ∧ (∀ isLinux env cs,
       let st := calls cs (initial isLinux env, []) in
       initialRoots isLinux env ⊆ stored st.1
       ∧ ∀ i j di c r,
           i ≠ j → st.2 !! i = Some di → st.2 !! j = Some (toDisposable c r) →
           c ∉ disposed st.1 →
           rootkey st.1 r ∈ stored (dispose di st.1)
           ∧ initialRoots isLinux env ⊆ stored (dispose di st.1))
  ∧ (∀ isLinux env sigs,
       initialRoots isLinux env ⊆ stored (run sigs (initial isLinux env))).
Proof.
  split; [| split; [| split; [| split; [| split]]]].
  - intros s root Hg. apply addValidRoot_present.
    by apply TernarySearchTreeFacts.get_true.
  - done.
  - intros s d. apply stored_dispose_subseteq.
  - intros s c root k Hk. apply stored_dispose_frame.
    intros c' root' [= <- <-]. done.
  - intros isLinux env cs st.
    assert (Issued (initialRoots isLinux env) st) as [HG Hinj].
    { apply Issued_calls.
      split; [apply (held_granted _ _ _ (Held_initial isLinux env)) |].
      intros i j c r r' Hi. simpl in Hi. by rewrite lookup_nil in Hi. }
    split; [apply (granted_boot _ _ _ HG) |].
    intros i j di c r Hij Hi Hj Hc.
    assert (Granted (initialRoots isLinux env) (dispose di st.1) st.2) as HG'.
    { apply Granted_dispose; [done |]. by eapply list_elem_of_lookup_2. }
    split; [| apply (granted_boot _ _ _ HG')].
    rewrite <- (rootkey_dispose di).
    apply (granted_root _ _ _ HG' c r); [by eapply list_elem_of_lookup_2 |].
    destruct di as [|ci ri]; [done |].
    destruct (decide (ci ∈ disposed st.1)) as [Hci | Hci].
    { by rewrite dispose_spent. }
    destruct (dispose_unspent ci ri st.1 Hci) as [_ ->].
    intros [->%elem_of_singleton | ?]%elem_of_union; [| done].
    apply Hij. by eapply Hinj.
  - intros isLinux env sigs.
    apply (granted_boot _ _ _ (held_granted _ _ _ (Held_reachable isLinux env sigs))).
Qed.

End RevokeClaims.

Lemma revoke_frame_witness :
  let s := initial (H := posix_host) true test_env in
  addValidRoot (file_uri "/app") s = (Disposable_None, s)
  ∧ (["dev"; "ext"] ∈ stored (dispose (toDisposable 0 (file_uri "/dev/other"))
                                 (addValidRoot (file_uri "/dev/ext") s).2)
     ↔ ["dev"; "ext"] ∈ stored (addValidRoot (file_uri "/dev/ext") s).2)
  ∧ rootkey (calls [Grant (file_uri "/dev/one"); Grant (file_uri "/dev/two")] (s, [])).1
            (file_uri "/dev/two")
    ∈ stored (dispose (toDisposable 0 (file_uri "/dev/one"))
                (calls [Grant (file_uri "/dev/one"); Grant (file_uri "/dev/two")]
                       (s, [])).1).
Proof.
  destruct (revoke_frame (H := posix_host)) as (Hnoop & _ & _ & Hframe & Hcalls & _).
  split; [| split].
  - apply Hnoop. vm_compute. reflexivity.
  - apply Hframe. vm_compute. discriminate.
  - apply (Hcalls true test_env
             [Grant (file_uri "/dev/one"); Grant (file_uri "/dev/two")]) with (i := 0) (j := 1) (c := 1).
    + lia.
    + vm_compute. reflexivity.
    + vm_compute. reflexivity.
    + apply (bool_decide_unpack _). vm_compute. exact I.
Defined.

(** C10. A second revoke of the same handle changes nothing, right
    after the first one or at any later point: whatever grants and
    revokes come in between, also new grants of the same path, the
    repeated revoke leaves the whole state as it finds it. *)
Theorem revoke_idempotent (s : State) (d : IDisposable) (cs : list Call)
    (hs : list IDisposable) :
  dispose d (dispose d s) = dispose d s
  ∧ dispose d (calls cs (dispose d s, hs)).1 = (calls cs (dispose d s, hs)).1.
Proof.
  destruct d as [|c root]; [done |].
  assert (c ∈ disposed (dispose (toDisposable c root) s)) as Hc.
  { destruct (decide (c ∈ disposed s)) as [Hc | Hc].
    - by rewrite dispose_spent.
    - destruct (dispose_unspent c root s Hc) as [_ ->]. set_solver. }
  split; apply dispose_spent; [done |].
  by apply (disposed_calls_mono cs (_, hs)).
Qed.

(** A root granted again after its first handle was revoked is kept by a
    repeated revoke of the first handle. *)
Example revoke_twice_keeps_new_grant :
  let s := initial (H := posix_host) true test_env in
  let st := calls [Grant (file_uri "/dev/ext"); Revoke 0;
                   Grant (file_uri "/dev/ext"); Revoke 0] (s, []) in
  st.2 = [toDisposable 0 (file_uri "/dev/ext"); toDisposable 1 (file_uri "/dev/ext")]
  ∧ TernarySearchTree.get (validRoots (handler st.1)) (file_uri "/dev/ext") = true.
Proof. vm_compute. split; reflexivity. Qed.

(** ** The extension allow-list *)

Section AllowList.
Context `{Host}.
Import TernarySearchTree.


End AllowList.


(** The end-to-end run of the spec: the roots of the environment serve,
    [/etc/passwd] is denied with one log entry, a granted development
    path serves while its window is alive and is denied after the close. *)
Example end_to_end :
  let s0 := initial (H := posix_host) true test_env in
  let s1 := step (H := posix_host) s0 (DidSignalReadyWindow (dev_window 7 "/dev/ext")) in
  let s2 := step (H := posix_host) s1 (DidClose 7) in
  let ask s u := callbacks (snd (handleFileRequest (H := posix_host) false
                                   {| url := u |} (handler s))) in
  ask s0 "file:///app/index.html" = [FilePath "/app/index.html"]
  ∧ ask s0 "file:///etc/passwd" = [Error (-3)]
  ∧ length (logs (snd (handleFileRequest (H := posix_host) false
                         {| url := "file:///etc/passwd" |} (handler s0)))) = 1
  ∧ ask s0 "file:///dev/ext/main.js" = [Error (-3)]
  ∧ ask s1 "file:///dev/ext/main.js" = [FilePath "/dev/ext/main.js"]
  ∧ ask s2 "file:///dev/ext/main.js" = [Error (-3)].
Proof. vm_compute. repeat split. Qed.


(** * Further properties of the handlers and of the grants *)

Section Answers.
Context `{Host}.

Lemma checked_trace_served tag this u o p :
  callbacks (checked_trace tag this u o) = [FilePath p] ↔
  p = fsPath u
  ∧ (findCoveringRoot this u = true ∨ isAllowed this (extname u) = true).
Proof.
  unfold checked_trace.
  destruct (findCoveringRoot this u); [| destruct (isAllowed this (extname u))];
    simpl; split; try (intros [= <-]; auto); try (by intros [-> _]).
  intros [_ [? | ?]]; done.
Qed.

Lemma checked_trace_denied tag this u o e :
  callbacks (checked_trace tag this u o) = [Error e] ↔
  e = ABORTED ∧ findCoveringRoot this u = false
  ∧ isAllowed this (extname u) = false.
Proof.
  unfold checked_trace.
  destruct (findCoveringRoot this u); [| destruct (isAllowed this (extname u))];
    simpl; split; try (intros [= <-]; auto); try (by intros (_ & ? & ?));
    by intros (-> & _).
Qed.

(** X1. The prefer-browser-code-load flag touches the native-file scheme
    only: for a request whose resolved URI a stored root covers, the
    native-file handler with the flag active denies with ABORTED while
    the app-resource handler serves the path. *)
Theorem flag_spares_resource_scheme (this : FileProtocolHandler)
    (fileRequest resourceRequest : ProtocolRequest) :
  URI_parse (url fileRequest) = asFileUri (URI_parse (url resourceRequest)) →
  findCoveringRoot this (URI_parse (url fileRequest)) = true →
  callbacks (snd (handleFileRequest true fileRequest this)) = [Error ABORTED]
  ∧ callbacks (snd (handleFileRequest false fileRequest this))
    = callbacks (snd (handleResourceRequest resourceRequest this))
  ∧ callbacks (snd (handleResourceRequest resourceRequest this))
    = [FilePath (fsPath (URI_parse (url fileRequest)))].
Proof.
  intros Hsame Hcov.
  rewrite handleFileRequest_active, handleFileRequest_inactive,
    handleResourceRequest_trace, <- Hsame.
  split; [done |].
  assert (∀ tag o, callbacks (checked_trace tag this (URI_parse (url fileRequest)) o)
                   = [FilePath (fsPath (URI_parse (url fileRequest)))]) as Hserved.
  { intros tag o. apply checked_trace_served. auto. }
  by rewrite !Hserved.
Qed.

Lemma append_assoc (a b c : string) : (a +:+ b) +:+ c = a +:+ (b +:+ c).
Proof. induction a as [|x a IH]; str_simpl; [done | by rewrite IH]. Qed.

Lemma refusal_names tag p o :
  ∃ pre mid, refusal tag p o = pre +:+ p +:+ mid +:+ o +:+ ")".
Proof.
  exists (tag +:+ ": Refused to load resource "),
         (" from " +:+ tag +:+ ": protocol (original URL: ").
  unfold refusal. by rewrite !append_assoc.
Qed.

(** X2. A served request leaves no log entry.  A denied request leaves
    exactly one, on either scheme and whatever the flag, and that entry
    names the resolved path and the original URL and ends with the
    closing parenthesis after the URL. *)
Theorem denial_logged_once (flag : bool) (this : FileProtocolHandler)
    (request : ProtocolRequest) :
  logs_denial_only (fsPath (URI_parse (url request))) (url request)
    (snd (handleFileRequest flag request this))
  ∧ logs_denial_only (fsPath (asFileUri (URI_parse (url request)))) (url request)
      (snd (handleResourceRequest request this)).
Proof.
  assert (∀ tag u, logs_denial_only (fsPath u) (url request)
                     (checked_trace tag this u (url request))) as Hchecked.
  { intros tag u. unfold logs_denial_only, checked_trace.
    destruct (findCoveringRoot this u); [| destruct (isAllowed this (extname u))];
      simpl; (split; [by intros p [= <-] | intros e [= <-]]).
    destruct (refusal_names tag (fsPath u) (url request)) as (pre & mid & ->).
    by exists pre, mid. }
  split.
  - destruct flag.
    + rewrite handleFileRequest_active. split; [by intros p [=] |].
      intros e _. exists "Refused to load resource ".
      exists (" from " +:+ Schemas.file +:+ ": protocol (original URL: ").
      simpl. by rewrite !append_assoc.
    + rewrite handleFileRequest_inactive. apply Hchecked.
  - rewrite handleResourceRequest_trace. apply Hchecked.
Qed.

End Answers.

Lemma flag_spares_resource_scheme_witness :
  let this := constructor (H := posix_host) true test_env in
  callbacks (snd (handleFileRequest (H := posix_host) true
                    {| url := "file:///app/out/main.js" |} this)) = [Error ABORTED]
  ∧ callbacks (snd (handleFileRequest (H := posix_host) false
                      {| url := "file:///app/out/main.js" |} this))
    = callbacks (snd (handleResourceRequest (H := posix_host)
                        {| url := "vscode-file://vscode-app/app/out/main.js" |} this))
  ∧ callbacks (snd (handleResourceRequest (H := posix_host)
                      {| url := "vscode-file://vscode-app/app/out/main.js" |} this))
    = [FilePath "/app/out/main.js"].
Proof.
  apply (flag_spares_resource_scheme (H := posix_host)
           (constructor (H := posix_host) true test_env)
           {| url := "file:///app/out/main.js" |}
           {| url := "vscode-file://vscode-app/app/out/main.js" |}).
  - vm_compute. reflexivity.
  - vm_compute. reflexivity.
Defined.

Section StoreChanges.
Context `{Host}.
Import TernarySearchTree.

Lemma findSubstr_mono tr tr' u :
  ignorePathCasing tr = ignorePathCasing tr' → roots tr ⊆ roots tr' →
  findSubstr tr u = true → findSubstr tr' u = true.
Proof.
  intros Hic Hsub. rewrite !TernarySearchTreeFacts.findSubstr_true.
  intros [Ha (k & Hk & Hp)]. split; [done |]. exists k. split; [by apply Hsub |].
  unfold key in *. by rewrite <- Hic.
Qed.

Lemma casing_addValidRoot root s d s' :
  addValidRoot root s = (d, s') →
  ignorePathCasing (validRoots (handler s'))
  = ignorePathCasing (validRoots (handler s)).
Proof. unfold addValidRoot. destruct (negb _); intros [= <- <-]; reflexivity. Qed.

Lemma casing_addValidRoots roots s ds s' :
  addValidRoots roots s = (ds, s') →
  ignorePathCasing (validRoots (handler s'))
  = ignorePathCasing (validRoots (handler s)).
Proof.
  revert s ds s'. induction roots as [|root roots IH]; intros s ds s'; simpl.
  - by intros [= <- <-].
  - destruct (addValidRoot root s) as [d s1] eqn:H1.
    destruct (addValidRoots roots s1) as [ds' s2] eqn:H2.
    intros [= <- <-]. rewrite (IH _ _ _ H2). by eapply casing_addValidRoot.
Qed.

Lemma casing_dispose d s :
  ignorePathCasing (validRoots (handler (dispose d s)))
  = ignorePathCasing (validRoots (handler s)).
Proof. destruct d; simpl; [done |]. by destruct (bool_decide _). Qed.

Lemma casing_dispose_all ds s :
  ignorePathCasing (validRoots (handler (dispose_all ds s)))
  = ignorePathCasing (validRoots (handler s)).
Proof.
  revert s. induction ds as [|d ds IH]; intros s; simpl; [done |].
  by rewrite IH, casing_dispose.
Qed.

Lemma casing_step s sig :
  ignorePathCasing (validRoots (handler (step s sig)))
  = ignorePathCasing (validRoots (handler s)).
Proof.
  assert (∀ w, ignorePathCasing (validRoots (handler (onDidCloseOrDestroy w s)))
               = ignorePathCasing (validRoots (handler s))) as Hfire.
  { intros w. unfold onDidCloseOrDestroy. by rewrite casing_dispose_all. }
  destruct sig as [window | w | w]; simpl; [| done | done].
  destruct (onDidSignalReadyWindow_requested window s)
    as [[_ ->] | (ds & s' & Hadd & ->)]; [done |].
  by rewrite <- (casing_addValidRoots _ _ _ _ Hadd).
Qed.

Lemma casing_run sigs s :
  ignorePathCasing (validRoots (handler (run sigs s)))
  = ignorePathCasing (validRoots (handler s)).
Proof.
  revert s. induction sigs as [|sig sigs IH]; intros s; [done |].
  by rewrite run_cons, IH, casing_step.
Qed.

Lemma stored_addValidRoot root s d s' :
  addValidRoot root s = (d, s') →
  stored s ⊆ stored s' ∧ rootkey s root ∈ stored s'.
Proof.
  intros Hadd. destruct (decide (rootkey s root ∈ stored s)) as [Hin | Hout].
  - rewrite (addValidRoot_present _ _ Hin) in Hadd. by injection Hadd as <- <-.
  - destruct (addValidRoot_absent _ _ _ _ Hout Hadd) as (_ & -> & _). set_solver.
Qed.

Lemma stored_addValidRoots roots s ds s' :
  addValidRoots roots s = (ds, s') →
  stored s ⊆ stored s' ∧ ∀ r, r ∈ roots → rootkey s r ∈ stored s'.
Proof.
  revert s ds s'. induction roots as [|root roots IH]; intros s ds s'; simpl.
  - intros [= <- <-]. split; [done |]. intros r Hr. by apply elem_of_nil in Hr.
  - destruct (addValidRoot root s) as [d s1] eqn:H1.
    destruct (addValidRoots roots s1) as [ds' s2] eqn:H2.
    intros [= <- <-].
    destruct (stored_addValidRoot _ _ _ _ H1) as [Hsub1 Hin1].
    destruct (IH _ _ _ H2) as [Hsub2 Hin2].
    split; [by etrans |].
    intros r [-> | Hr]%elem_of_cons; [by apply Hsub2 |].
    rewrite <- (rootkey_addValidRoot _ _ _ _ r H1). by apply Hin2.
Qed.

Lemma stored_ready window s :
  stored s ⊆ stored (step s (DidSignalReadyWindow window))
  ∧ ∀ r, r ∈ requested window →
         rootkey s r ∈ stored (step s (DidSignalReadyWindow window)).
Proof.
  simpl. destruct (onDidSignalReadyWindow_requested window s)
    as [[Hnil ->] | (ds & s' & Hadd & ->)].
  - split; [done |]. intros r Hr. rewrite Hnil in Hr. by apply elem_of_nil in Hr.
  - apply (stored_addValidRoots _ _ _ _ Hadd).
Qed.

Lemma stored_terminal w s sig :
  is_terminal w sig = true → stored (step s sig) ⊆ stored s.
Proof.
  destruct sig as [window | w' | w']; simpl; [done | |]; intros _;
    unfold onDidCloseOrDestroy;
    exact (stored_dispose_all_subseteq _ (with_listeners s _)).
Qed.

(** The trace of a handler that consults the tables, as a function of
    the object. *)
Lemma consulting_handler (h : ProtocolRequest → Handler unit) request u :
  (h = handleFileRequest false ∧ u = URI_parse (url request))
  ∨ (h = handleResourceRequest ∧ u = asFileUri (URI_parse (url request))) →
  ∃ tag, ∀ this, snd (h request this) = checked_trace tag this u (url request).
Proof.
  intros [[-> ->] | [-> ->]]; eexists; intros this.
  - apply handleFileRequest_inactive.
  - apply handleResourceRequest_trace.
Qed.

Lemma consulting_handler_some (h : ProtocolRequest → Handler unit) request :
  h = handleFileRequest false ∨ h = handleResourceRequest →
  ∃ tag u, ∀ this, snd (h request this) = checked_trace tag this u (url request).
Proof.
  intros [-> | ->].
  - destruct (consulting_handler (handleFileRequest false) request
                (URI_parse (url request))) as [tag Ht]; eauto.
  - destruct (consulting_handler handleResourceRequest request
                (asFileUri (URI_parse (url request)))) as [tag Ht]; eauto.
Qed.

(** X3. A ready signal only adds roots: whatever a handler served
    before the signal it serves after it, with the same path. *)
Theorem ready_keeps_served (window : ICodeWindow) (s : State)
    (request : ProtocolRequest) (p : string) (h : ProtocolRequest → Handler unit) :
  h = handleFileRequest false ∨ h = handleResourceRequest →
  callbacks (snd (h request (handler s))) = [FilePath p] →
  callbacks (snd (h request (handler (step s (DidSignalReadyWindow window)))))
  = [FilePath p].
Proof.
  intros Hh. destruct (consulting_handler_some h request Hh) as (tag & u & Ht).
  rewrite !Ht, !checked_trace_served. intros [-> [Hc | Ha]]; (split; [done |]).
  - left. unfold findCoveringRoot in *.
    eapply findSubstr_mono; [| apply (stored_ready window s) | done].
    by rewrite casing_step.
  - right. unfold isAllowed in *. by rewrite validExtensions_step.
Qed.

(** X4. A close or destroy signal only removes roots: whatever a handler
    denied before the signal it denies after it. *)
Theorem terminal_keeps_denied (w : nat) (sig : Signal) (s : State)
    (request : ProtocolRequest) (e : Z) (h : ProtocolRequest → Handler unit) :
  h = handleFileRequest false ∨ h = handleResourceRequest →
  is_terminal w sig = true →
  callbacks (snd (h request (handler s))) = [Error e] →
  callbacks (snd (h request (handler (step s sig)))) = [Error e].
Proof.
  intros Hh Hsig. destruct (consulting_handler_some h request Hh) as (tag & u & Ht).
  rewrite !Ht, !checked_trace_denied. intros (-> & Hc & Ha).
  split; [done |]. split.
  - apply not_true_is_false. intros Hc'. unfold findCoveringRoot in *.
    rewrite (findSubstr_mono (validRoots (handler (step s sig)))
               (validRoots (handler s)) u) in Hc; [done | | | done].
    + by rewrite casing_step.
    + by apply (stored_terminal w).
  - unfold isAllowed in *. by rewrite validExtensions_step.
Qed.

Lemma covered_descendant (s : State) (r u : URI) :
  rootkey s r ∈ stored s → absolute (path u) = true →
  descends (path r) (path u) →
  findCoveringRoot (handler s) u = true.
Proof.
  intros Hin Ha Hd. apply (findSubstr_get _ r u); [| done |].
  - by apply TernarySearchTreeFacts.get_true.
  - unfold key. destruct Hd as [-> | [rest ->]]; [done |].
    apply TernarySearchTreeFacts.normalize_descendant.
Qed.


Lemma constructorRoots_initial isLinux env r :
  r ∈ constructorRoots env →
  rootkey (initial isLinux env) r ∈ initialRoots isLinux env.
Proof.
  unfold constructorRoots, initialRoots, stored, rootkey, initial, constructor.
  simpl. unfold key. simpl.
  rewrite !elem_of_cons, elem_of_nil. intros [-> | [-> | [-> | [-> | []]]]];
    set_solver.
Qed.

(** X6. In every state the signals can reach, a request for one of the
    four roots of the constructor, or for a path below one, is served by
    the native-file handler when prefer-browser-code-load is inactive
    and by the app-resource handler whatever that flag is: no grant and
    no revocation takes the initial roots away.  (With the flag active
    the native-file handler denies every request.) *)
Theorem initial_roots_always_served (isLinux : bool)
    (env : INativeEnvironmentService) (history : list Signal) (r u : URI)
    (request : ProtocolRequest) (h : ProtocolRequest → Handler unit) :
  (h = handleFileRequest false ∧ u = URI_parse (url request))
  ∨ (h = handleResourceRequest ∧ u = asFileUri (URI_parse (url request))) →
  r ∈ constructorRoots env →
  absolute (path u) = true → descends (path r) (path u) →
  callbacks (snd (h request (handler (run history (initial isLinux env)))))
  = [FilePath (fsPath u)].
Proof.
  intros Hh Hr Ha Hd. destruct (consulting_handler h request u Hh) as [tag Ht].
  rewrite Ht, checked_trace_served. split; [done |]. left.
  apply (covered_descendant _ r); [| done | done].
  rewrite rootkey_run.
  apply (granted_boot _ _ _ (held_granted _ _ _ (Held_reachable isLinux env history))).
  by apply constructorRoots_initial.
Qed.

End StoreChanges.

Section Terminal.
Context `{Host}.

Lemma with_listeners_id s : with_listeners s (listeners s) = s.
Proof. by destruct s. Qed.

Lemma filter_no_listener (w : nat) (ls : list (nat * list IDisposable)) :
  Forall (λ l, l.1 ≠ w) ls →
  filter (λ l, l.1 = w) ls = [] ∧ filter (λ l, l.1 ≠ w) ls = ls.
Proof.
  induction 1 as [|l ls Hl _ [IH1 IH2]]; [done |].
  rewrite !filter_cons, IH1, IH2.
  destruct (decide (l.1 = w)); [done |]. by destruct (decide (l.1 ≠ w)).
Qed.

Lemma onDidCloseOrDestroy_no_listener w s :
  Forall (λ l, l.1 ≠ w) (listeners s) → onDidCloseOrDestroy w s = s.
Proof.
  intros Hno. unfold onDidCloseOrDestroy.
  destruct (filter_no_listener w (listeners s) Hno) as [-> ->].
  simpl. apply with_listeners_id.
Qed.

Lemma listeners_onDidCloseOrDestroy w s :
  listeners (onDidCloseOrDestroy w s) = filter (λ l, l.1 ≠ w) (listeners s).
Proof. unfold onDidCloseOrDestroy. by rewrite listeners_dispose_all. Qed.

Lemma terminal_step w sig s :
  is_terminal w sig = true → step s sig = onDidCloseOrDestroy w s.
Proof.
  destruct sig as [window | w' | w']; simpl; [done | |];
    by intros ->%bool_decide_eq_true.
Qed.

(** X7. The close-or-destroy listener of a window fires once: after the
    first close or destroy signal of a window a further one changes
    nothing, and such a signal for a window that no listener is
    subscribed to changes nothing either. *)
Theorem terminal_fires_once (w : nat) (sig1 sig2 : Signal) (s : State) :
  is_terminal w sig1 = true → is_terminal w sig2 = true →
  step (step s sig1) sig2 = step s sig1
  ∧ (Forall (λ l, l.1 ≠ w) (listeners s) → step s sig1 = s).
Proof.
  intros H1 H2. rewrite (terminal_step w sig2 _ H2), (terminal_step w sig1 _ H1).
  split; [| apply onDidCloseOrDestroy_no_listener].
  apply onDidCloseOrDestroy_no_listener.
  rewrite listeners_onDidCloseOrDestroy. apply Forall_forall.
  by intros l [? _]%list_elem_of_filter.
Qed.

Lemma stored_dispose_all_frame ds s k :
  (∀ c r, toDisposable c r ∈ ds → rootkey s r ≠ k) →
  k ∈ stored (dispose_all ds s) ↔ k ∈ stored s.
Proof.
  revert s. induction ds as [|d ds IH]; intros s Hk; [done |].
  simpl. rewrite IH.
  - apply stored_dispose_frame. intros c r ->. apply not_eq_sym, (Hk c). by left.
  - intros c r Hin. rewrite rootkey_dispose. apply (Hk c). by right.
Qed.

(** X8. A close or destroy signal of a window removes only roots whose
    handles the listeners of that window hold: every other stored root
    is still stored after it. *)
Theorem terminal_removes_only_own (w : nat) (sig : Signal) (s : State)
    (k : list string) :
  is_terminal w sig = true →
  k ∈ stored s →
  (∀ ds c r, (w, ds) ∈ listeners s → toDisposable c r ∈ ds → rootkey s r ≠ k) →
  k ∈ stored (step s sig).
Proof.
  intros Hsig Hk Hown. rewrite (terminal_step w sig s Hsig).
  unfold onDidCloseOrDestroy.
  apply (stored_dispose_all_frame _ (with_listeners s _)); [| done].
  intros c r (ds & Hin & Hds)%list_elem_of_join.
  apply list_elem_of_fmap in Hds as ([w' ds'] & -> & [Hw Hl]%list_elem_of_filter).
  simpl in *. subst w'. by eapply Hown.
Qed.

(** X9. A ready window without a configuration, or with neither a
    development path nor a non-empty tests path, changes nothing: no
    root is added and nothing is subscribed.  An empty list of
    development paths does count as a path: the window is subscribed,
    with no handle, and the handler object stays as it was. *)
Theorem ready_without_paths (window : ICodeWindow) (s : State) :
  (config window ≫= extensionDevelopmentPath = None →
   truthy_string (config window ≫= extensionTestsPath) = false →
   step s (DidSignalReadyWindow window) = s)
  ∧ (config window ≫= extensionDevelopmentPath = Some [] →
     truthy_string (config window ≫= extensionTestsPath) = false →
     step s (DidSignalReadyWindow window)
     = with_listeners s (listeners s ++ [(id window, [])])).
Proof.
  simpl. unfold onDidSignalReadyWindow. split; intros -> Ht; simpl.
  - rewrite Ht. done.
  - destruct (config window ≫= extensionTestsPath) as [[|c p]|]; done.
Qed.

End Terminal.

Lemma terminal_fires_once_witness :
  let s := run (H := posix_host) [DidSignalReadyWindow (dev_window 1 "/dev/ext")]
             (initial (H := posix_host) true test_env) in
  step (H := posix_host) (step (H := posix_host) s (DidClose 1)) (DidDestroy 1)
  = step (H := posix_host) s (DidClose 1)
  ∧ (Forall (λ l, l.1 ≠ 1) (listeners s) → step (H := posix_host) s (DidClose 1) = s).
Proof.
  apply (terminal_fires_once (H := posix_host) 1 (DidClose 1) (DidDestroy 1));
    reflexivity.
Defined.

Lemma terminal_removes_only_own_witness :
  let s := run (H := posix_host)
             [DidSignalReadyWindow (dev_window 1 "/dev/one");
              DidSignalReadyWindow (dev_window 2 "/dev/two")]
             (initial (H := posix_host) true test_env) in
  ["dev"; "two"] ∈ stored (step (H := posix_host) s (DidClose 1)).
Proof.
  apply (terminal_removes_only_own (H := posix_host) 1 (DidClose 1)).
  - reflexivity.
  - apply (bool_decide_unpack _). vm_compute. exact I.
  - intros ds c r Hl Hd. vm_compute in Hl.
    apply elem_of_cons in Hl as [Hl | Hl].
    + injection Hl as ->. apply list_elem_of_singleton in Hd. injection Hd as -> ->.
      vm_compute. discriminate.
    + apply list_elem_of_singleton in Hl. discriminate Hl.
Defined.

Lemma ready_without_paths_witness :
  let s := initial (H := posix_host) true test_env in
  step (H := posix_host) s (DidSignalReadyWindow (tests_window 3 "")) = s
  ∧ step (H := posix_host) s
      (DidSignalReadyWindow
         {| id := 4;
            config := Some {| extensionDevelopmentPath := Some [];
                              extensionTestsPath := None |} |})
    = with_listeners s (listeners s ++ [(4, [])]).
Proof.
  split.
  - apply (ready_without_paths (H := posix_host) (tests_window 3 "")); reflexivity.
  - apply (ready_without_paths (H := posix_host)
             {| id := 4;
                config := Some {| extensionDevelopmentPath := Some [];
                                  extensionTestsPath := None |} |}); reflexivity.
Defined.

Section Accounting.
Context `{Host}.

Lemma elem_of_keys s hs k :
  k ∈ keys s hs ↔ ∃ c r, toDisposable c r ∈ hs ∧ rootkey s r = k.
Proof.
  unfold keys. rewrite elem_of_list_to_set, list_elem_of_omap. split.
  - intros ([|c r] & Hin & Hk); simplify_eq/=. eauto.
  - intros (c & r & Hin & <-). by exists (toDisposable c r).
Qed.

Lemma keys_app s hs1 hs2 : keys s (hs1 ++ hs2) = keys s hs1 ∪ keys s hs2.
Proof. unfold keys. by rewrite omap_app, list_to_set_app_L. Qed.

Lemma keys_ext s s' hs :
  (∀ r, rootkey s' r = rootkey s r) → keys s' hs = keys s hs.
Proof.
  intros Hext. apply set_eq. intros k. rewrite !elem_of_keys.
  split; intros (c & r & Hin & <-); exists c, r; by rewrite Hext.
Qed.

Lemma keys_Permutation s hs hs' : hs ≡ₚ hs' → keys s hs = keys s hs'.
Proof.
  intros Hp. apply set_eq. intros k. rewrite !elem_of_keys.
  split; intros (c & r & Hin & <-); exists c, r; split; try done;
    [by rewrite <- Hp | by rewrite Hp].
Qed.

Lemma Accounted_addValidRoot boot root s hs d s' :
  Accounted boot s hs → addValidRoot root s = (d, s') →
  Accounted boot s' (hs ++ [d]).
Proof.
  unfold Accounted. intros HA Hadd. rewrite keys_app.
  destruct (decide (rootkey s root ∈ stored s)) as [Hin | Hout].
  - rewrite (addValidRoot_present _ _ Hin) in Hadd. injection Hadd as <- <-.
    rewrite HA. unfold keys. simpl. set_solver.
  - rewrite (keys_ext s s') by (intros r; by eapply rootkey_addValidRoot).
    rewrite (keys_ext s s' [d]) by (intros r; by eapply rootkey_addValidRoot).
    destruct (addValidRoot_absent _ _ _ _ Hout Hadd) as (-> & -> & _).
    rewrite HA. unfold keys. simpl. set_solver.
Qed.

Lemma Accounted_addValidRoots boot roots s hs ds s' :
  Accounted boot s hs → addValidRoots roots s = (ds, s') →
  Accounted boot s' (hs ++ ds).
Proof.
  revert s hs ds s'. induction roots as [|root roots IH]; intros s hs ds s' HA; simpl.
  - intros [= <- <-]. by rewrite app_nil_r.
  - destruct (addValidRoot root s) as [d s1] eqn:H1.
    destruct (addValidRoots roots s1) as [ds' s2] eqn:H2.
    intros [= <- <-]. rewrite cons_middle, (assoc_L (++) hs [d] ds').
    eapply IH; [| done]. by eapply Accounted_addValidRoot.
Qed.

Lemma Accounted_dispose_all boot ds s rest :
  Held boot s (ds ++ rest) → Accounted boot s (ds ++ rest) →
  Accounted boot (dispose_all ds s) rest.
Proof.
  revert s. induction ds as [|d ds IH]; intros s HH HA; [done |].
  simpl. apply IH; [apply (Held_dispose_all boot [d] s (ds ++ rest) HH) |].
  unfold Accounted in *.
  rewrite (keys_ext s (dispose d s)) by (intros r; apply rootkey_dispose).
  destruct d as [|c r]; [exact HA |].
  destruct HH as [HG Hu Hn].
  assert (toDisposable c r ∈ toDisposable c r :: ds ++ rest) as Hd by (by left).
  destruct (dispose_unspent c r s (Hu c r Hd)) as [-> _].
  destruct (granted_root _ _ _ HG c r Hd (Hu c r Hd)) as [_ Hnb].
  assert (rootkey s r ∉ keys s (ds ++ rest)) as Hnk.
  { intros (c' & r' & Hin & Hk)%elem_of_keys.
    assert (c' = c) as ->.
    { eapply (granted_unique _ _ _ HG); [by right | done | | | done];
        eapply Hu; [by right | done]. }
    simpl in Hn. apply NoDup_cons in Hn as [Hn _]. apply Hn.
    apply list_elem_of_omap. by exists (toDisposable c r'). }
  rewrite HA.
  change (keys s ((toDisposable c r :: ds) ++ rest))
    with ({[ rootkey s r ]} ∪ keys s (ds ++ rest)).
  revert Hnb Hnk. generalize (keys s (ds ++ rest)) (rootkey s r).
  clear. set_solver.
Qed.

Lemma Accounted_step boot s sig :
  Held boot s (live s) → Accounted boot s (live s) →
  Accounted boot (step s sig) (live (step s sig)).
Proof.
  intros HH HA.
  assert (∀ w, Accounted boot (onDidCloseOrDestroy w s)
                 (live (onDidCloseOrDestroy w s))) as Hfire.
  { intros w. unfold onDidCloseOrDestroy.
    replace (live (dispose_all _ _))
      with (mjoin (snd <$> filter (λ l, l.1 ≠ w) (listeners s)))
      by (unfold live; by rewrite listeners_dispose_all).
    apply Accounted_dispose_all.
    - apply Held_with_listeners. eapply Held_Permutation; [apply live_split | done].
    - unfold Accounted in *.
      rewrite <- (keys_Permutation (with_listeners s _) _ _ (live_split w s)).
      exact HA. }
  destruct sig as [window | w | w]; simpl; [| done | done].
  destruct (onDidSignalReadyWindow_requested window s)
    as [[_ ->] | (ds & s' & Hadd & ->)]; [done |].
  rewrite live_snoc, (listeners_addValidRoots _ _ _ _ Hadd).
  exact (Accounted_addValidRoots boot _ _ _ _ _ HA Hadd).
Qed.

Lemma Accounted_run boot sigs s :
  Held boot s (live s) → Accounted boot s (live s) →
  Accounted boot (run sigs s) (live (run sigs s)).
Proof.
  revert s. induction sigs as [|sig sigs IH]; intros s HH HA; [done |].
  rewrite run_cons. apply IH; [by apply Held_step | by apply Accounted_step].
Qed.

Lemma handler_eq (s s' : State) :
  TernarySearchTree.ignorePathCasing (validRoots (handler s))
  = TernarySearchTree.ignorePathCasing (validRoots (handler s')) →
  stored s = stored s' →
  validExtensions (handler s) = validExtensions (handler s') →
  handler s = handler s'.
Proof.
  unfold stored. destruct (handler s) as [[ic r] ve], (handler s') as [[ic' r'] ve'].
  simpl. by intros -> -> ->.
Qed.

(** X10. No root is orphaned: in every state the signals can reach, the
    stored roots are exactly the roots of the constructor together with
    the roots of the handles that subscribed listeners still hold. *)
Theorem no_orphan_roots (isLinux : bool) (env : INativeEnvironmentService)
    (history : list Signal) :
  let s := run history (initial isLinux env) in
  stored s = initialRoots isLinux env ∪ keys s (live s).
Proof.
  apply Accounted_run; [apply Held_initial |].
  unfold Accounted, initialRoots, keys. simpl. set_solver.
Qed.

(** X11. When every subscribed window has closed, the handler object is
    what the constructor built: all granted development and tests roots
    are gone and nothing else is. *)
Theorem all_closed_restores (isLinux : bool) (env : INativeEnvironmentService)
    (history : list Signal) :
  listeners (run history (initial isLinux env)) = [] →
  handler (run history (initial isLinux env)) = constructor isLinux env.
Proof.
  intros Hnone.
  apply (handler_eq _ (initial isLinux env)).
  - apply casing_run.
  - pose proof (Accounted_run (initialRoots isLinux env) history
                  (initial isLinux env) (Held_initial isLinux env)) as HA.
    unfold Accounted in HA. rewrite HA.
    + unfold live. rewrite Hnone. unfold keys, initialRoots. simpl. set_solver.
    + unfold initialRoots, keys. simpl. set_solver.
  - apply validExtensions_run.
Qed.

(** X12. For the handler object, a ready signal of a window followed by
    a close or destroy signal of that window is the same as that close
    or destroy signal alone; when no listener was subscribed to the
    window before, the object is back to what it was. *)
Theorem ready_then_terminal (isLinux : bool) (env : INativeEnvironmentService)
    (history : list Signal) (window : ICodeWindow) (sig : Signal) :
  is_terminal window.(id) sig = true →
  let s := run history (initial isLinux env) in
  handler (step (step s (DidSignalReadyWindow window)) sig) = handler (step s sig)
  ∧ (Forall (λ l, l.1 ≠ window.(id)) (listeners s) →
     handler (step (step s (DidSignalReadyWindow window)) sig) = handler s).
Proof.
  intros Hsig s.
  assert (handler (step (step s (DidSignalReadyWindow window)) sig)
          = handler (step s sig)) as Heq.
  { apply handler_eq.
    - by rewrite !casing_step.
    - pose proof (Accounted_run (initialRoots isLinux env)) as Hrun.
      pose proof (Hrun (history ++ [DidSignalReadyWindow window; sig])
                    (initial isLinux env) (Held_initial isLinux env)) as HA1.
      pose proof (Hrun (history ++ [sig])
                    (initial isLinux env) (Held_initial isLinux env)) as HA2.
      rewrite run_app in HA1, HA2. fold s in HA1, HA2.
      change (run [DidSignalReadyWindow window; sig] s)
        with (step (step s (DidSignalReadyWindow window)) sig) in HA1.
      change (run [sig] s) with (step s sig) in HA2.
      unfold Accounted in HA1, HA2.
      rewrite HA1, HA2 by (unfold Accounted, initialRoots, keys; simpl; set_solver).
      f_equal.
      rewrite (keys_ext (step s sig) (step (step s (DidSignalReadyWindow window)) sig))
        by (intros r; by rewrite !rootkey_step).
      f_equal. unfold live. f_equal. f_equal.
      rewrite !(terminal_step _ _ _ Hsig), !listeners_onDidCloseOrDestroy.
      simpl. destruct (onDidSignalReadyWindow_requested window s)
        as [[_ ->] | (ds & s' & Hadd & ->)]; [done |].
      simpl. rewrite (listeners_addValidRoots _ _ _ _ Hadd), filter_app.
      rewrite filter_cons. simpl. destruct (decide _); [done |].
      by rewrite filter_nil, app_nil_r.
    - by rewrite !validExtensions_step. }
  split; [done |]. intros Hno. rewrite Heq.
  by rewrite (terminal_step _ _ _ Hsig), onDidCloseOrDestroy_no_listener.
Qed.

(** X13. Granting a root and revoking the returned handle at once leaves
    the handler object as it was, whether the root was new or already
    stored, in every state that grants and revokes can reach. *)
Theorem grant_then_revoke (isLinux : bool) (env : INativeEnvironmentService)
    (cs : list Call) (root : URI) :
  let s := (calls cs (initial isLinux env, [])).1 in
  handler (dispose (addValidRoot root s).1 (addValidRoot root s).2) = handler s.
Proof.
  intros s.
  assert (Issued (initialRoots isLinux env) (calls cs (initial isLinux env, [])))
    as [HG _].
  { apply Issued_calls.
    split; [apply (held_granted _ _ _ (Held_initial isLinux env)) |].
    intros i j c r r' Hi. simpl in Hi. by rewrite lookup_nil in Hi. }
  fold s in HG.
  destruct (addValidRoot root s) as [d s'] eqn:Hadd. simpl.
  destruct (decide (rootkey s root ∈ stored s)) as [Hin | Hout].
  - rewrite (addValidRoot_present _ _ Hin) in Hadd. by injection Hadd as <- <-.
  - pose proof (rootkey_addValidRoot _ _ _ _ root Hadd) as Hkey.
    destruct (addValidRoot_absent _ _ _ _ Hout Hadd) as (-> & Hst & Hdis & Hal).
    assert (allocated s ∉ disposed s') as Hfresh.
    { rewrite Hdis. intros Hc%(granted_spent _ _ _ HG). lia. }
    destruct (dispose_unspent (allocated s) root s' Hfresh) as [Hst' _].
    apply handler_eq.
    + rewrite casing_dispose. by eapply casing_addValidRoot.
    + rewrite Hst', Hst, Hkey. set_solver.
    + rewrite validExtensions_dispose. by eapply validExtensions_addValidRoot.
Qed.

End Accounting.

Lemma ready_keeps_served_witness :
  callbacks (snd (handleFileRequest (H := posix_host) false
                    {| url := "file:///app/out/main.js" |}
                    (handler (step (H := posix_host)
                                (initial (H := posix_host) true test_env)
                                (DidSignalReadyWindow (dev_window 1 "/dev/ext"))))))
  = [FilePath "/app/out/main.js"].
Proof.
  apply (ready_keeps_served (H := posix_host) (dev_window 1 "/dev/ext")
           (initial (H := posix_host) true test_env)
           {| url := "file:///app/out/main.js" |} "/app/out/main.js"
           (handleFileRequest (H := posix_host) false)).
  - left. reflexivity.
  - vm_compute. reflexivity.
Defined.

Lemma terminal_keeps_denied_witness :
  callbacks (snd (handleResourceRequest (H := posix_host)
                    {| url := "vscode-file://vscode-app/etc/passwd" |}
                    (handler (step (H := posix_host)
                                (run (H := posix_host)
                                   [DidSignalReadyWindow (dev_window 1 "/dev/ext")]
                                   (initial (H := posix_host) true test_env))
                                (DidDestroy 1)))))
  = [Error (-3)].
Proof.
  apply (terminal_keeps_denied (H := posix_host) 1 (DidDestroy 1)
           (run (H := posix_host) [DidSignalReadyWindow (dev_window 1 "/dev/ext")]
              (initial (H := posix_host) true test_env))
           {| url := "vscode-file://vscode-app/etc/passwd" |} (-3)
           (handleResourceRequest (H := posix_host))).
  - right. reflexivity.
  - reflexivity.
  - vm_compute. reflexivity.
Defined.


Lemma initial_roots_always_served_witness :
  callbacks (snd (handleResourceRequest (H := posix_host)
                    {| url := "vscode-file://vscode-app/app/out/index.html" |}
                    (handler (run (H := posix_host)
                                [DidSignalReadyWindow (dev_window 1 "/app");
                                 DidClose 1]
                                (initial (H := posix_host) false test_env)))))
  = [FilePath "/app/out/index.html"].
Proof.
  apply (initial_roots_always_served (H := posix_host) false test_env
           [DidSignalReadyWindow (dev_window 1 "/app"); DidClose 1]
           (file_uri "/app") (file_uri "/app/out/index.html")
           {| url := "vscode-file://vscode-app/app/out/index.html" |}
           (handleResourceRequest (H := posix_host))).
  - right. split; reflexivity.
  - apply (bool_decide_unpack _). vm_compute. exact I.
  - reflexivity.
  - right. exists "out/index.html". reflexivity.
Defined.

Lemma all_closed_restores_witness :
  handler (run (H := posix_host)
             [DidSignalReadyWindow (dev_window 1 "/dev/ext");
              DidSignalReadyWindow (tests_window 2 "/dev/ext/test");
              DidDestroy 2; DidClose 1]
             (initial (H := posix_host) true test_env))
  = constructor (H := posix_host) true test_env.
Proof.
  apply (all_closed_restores (H := posix_host) true test_env
           [DidSignalReadyWindow (dev_window 1 "/dev/ext");
            DidSignalReadyWindow (tests_window 2 "/dev/ext/test");
            DidDestroy 2; DidClose 1]).
  vm_compute. reflexivity.
Defined.

Lemma ready_then_terminal_witness :
  let s := run (H := posix_host) [DidSignalReadyWindow (dev_window 1 "/dev/one")]
             (initial (H := posix_host) true test_env) in
  handler (step (H := posix_host)
             (step (H := posix_host) s (DidSignalReadyWindow (dev_window 1 "/dev/two")))
             (DidClose 1))
  = handler (step (H := posix_host) s (DidClose 1))
  ∧ (Forall (λ l, l.1 ≠ 1) (listeners s) →
     handler (step (H := posix_host)
                (step (H := posix_host) s
                   (DidSignalReadyWindow (dev_window 1 "/dev/two")))
                (DidClose 1)) = handler s).
Proof.
  apply (ready_then_terminal (H := posix_host) true test_env
           [DidSignalReadyWindow (dev_window 1 "/dev/one")]
           (dev_window 1 "/dev/two") (DidClose 1)).
  reflexivity.
Defined.

(** * The handlers when a collaborator throws *)

Section AsyncFacts.
Context `{ThrowingHost}.

Lemma handleFileRequest_async_outcome flag request this :
  (handleFileRequest_async flag request this).1 = file_collaborators request
  ∧ settles (handleFileRequest_async flag request this).
Proof.
  unfold handleFileRequest_async, file_collaborators, settles.
  unfold mbind, Async_bind, Outcome_bind, attempt, perform.
  unfold validRoots_findSubstr, validExtensions_has, logService_error, callback.
  destruct (try_URI_parse (url request)) as [u | e]; simpl; [| done].
  destruct flag; simpl.
  - destruct (try_fsPath u) as [p | e]; simpl; [| done].
    split; [done |]. eexists. repeat split.
  - destruct (TernarySearchTree.findSubstr (validRoots this) u); simpl;
      [| destruct (bool_decide (extname u ∈ validExtensions this)); simpl];
      (destruct (try_fsPath u) as [p | e]; simpl; [| done]);
      (split; [done |]); eexists; repeat split.
Qed.

Lemma handleResourceRequest_async_outcome request this :
  (handleResourceRequest_async request this).1 = resource_collaborators request
  ∧ settles (handleResourceRequest_async request this).
Proof.
  unfold handleResourceRequest_async, resource_collaborators, settles.
  unfold mbind, Async_bind, Outcome_bind, attempt, perform.
  unfold validRoots_findSubstr, validExtensions_has, logService_error, callback.
  destruct (try_URI_parse (url request)) as [u0 | e]; simpl; [| done].
  destruct (try_asFileUri u0) as [u | e]; simpl; [| done].
  destruct (TernarySearchTree.findSubstr (validRoots this) u); simpl;
    [| destruct (bool_decide (extname u ∈ validExtensions this)); simpl];
    (destruct (try_fsPath u) as [p | e]; simpl; [| done]);
    (split; [done |]); eexists; repeat split.
Qed.

End AsyncFacts.

Lemma handleFileRequest_async_returning `{Host} flag request this :
  handleFileRequest_async (H := returning _) flag request this
  = (Returned (), snd (handleFileRequest flag request this)).
Proof.
  unfold handleFileRequest_async, handleFileRequest.
  unfold mbind, Async_bind, Handler_bind, attempt, perform.
  unfold validRoots_findSubstr, validExtensions_has, logService_error, callback.
  simpl. destruct flag; simpl; [done |].
  destruct (TernarySearchTree.findSubstr _ _); simpl; [done |].
  by destruct (bool_decide _).
Qed.

Lemma handleResourceRequest_async_returning `{Host} request this :
  handleResourceRequest_async (H := returning _) request this
  = (Returned (), snd (handleResourceRequest request this)).
Proof.
  unfold handleResourceRequest_async, handleResourceRequest.
  unfold mbind, Async_bind, Handler_bind, attempt, perform.
  unfold validRoots_findSubstr, validExtensions_has, logService_error, callback.
  simpl. destruct (TernarySearchTree.findSubstr _ _); simpl; [done |].
  by destruct (bool_decide _).
Qed.

(** C7, as the code has it.  On either scheme and whatever the flag, a
    handler ends as its calls to [URI.parse], [asFileUri] and [fsPath]
    end: it returns when they all return and its promise rejects with
    the error of the first that throws; it has no throw and no [try] of
    its own.  When it returns, it has called the callback exactly once,
    as its last act, and the only error it passes is ABORTED, -3; when it
    rejects, it has not called the callback.  Over collaborators that
    never throw it always returns, with the trace of the handler over
    them. *)
Theorem handlers_settle_or_reject :
  (∀ (TH : ThrowingHost) flag this request,
      (handleFileRequest_async (H := TH) flag request this).1
      = file_collaborators (H := TH) request
      ∧ (handleResourceRequest_async (H := TH) request this).1
        = resource_collaborators (H := TH) request
      ∧ settles (handleFileRequest_async (H := TH) flag request this)
      ∧ settles (handleResourceRequest_async (H := TH) request this))
  ∧ (∀ (H : Host) flag this request,
      handleFileRequest_async (H := returning H) flag request this
      = (Returned (), snd (handleFileRequest flag request this))
      ∧ handleResourceRequest_async (H := returning H) request this
        = (Returned (), snd (handleResourceRequest request this))
      ∧ resolves_once (snd (handleFileRequest flag request this))
      ∧ resolves_once (snd (handleResourceRequest request this))).
Proof.
  split.
  - intros TH flag this request.
    destruct (handleFileRequest_async_outcome (H := TH) flag request this).
    destruct (handleResourceRequest_async_outcome (H := TH) request this).
    done.
  - intros H flag this request.
    destruct (returning_handlers_resolve_once flag this request).
    split; [apply handleFileRequest_async_returning |].
    split; [apply handleResourceRequest_async_returning | done].
Qed.

(** C7 as stated does not hold of a request on which a collaborator
    throws: with a [URI.parse] that validates, the request
    [file:////etc/passwd] makes the handler reject and the callback is
    never called, on either scheme and whatever the flag. *)
Lemma malformed_url_never_resolves :
  (∃ e, (handleFileRequest_async (H := validating_host) false
           {| url := "file:////etc/passwd" |}
           (constructor (H := posix_host) true test_env)).1 = Thrown e)
  ∧ callbacks (handleFileRequest_async (H := validating_host) false
                 {| url := "file:////etc/passwd" |}
                 (constructor (H := posix_host) true test_env)).2 = []
  ∧ ¬ resolves_once (handleFileRequest_async (H := validating_host) false
                       {| url := "file:////etc/passwd" |}
                       (constructor (H := posix_host) true test_env)).2
  ∧ ¬ resolves_once (handleFileRequest_async (H := validating_host) true
                       {| url := "file:////etc/passwd" |}
                       (constructor (H := posix_host) true test_env)).2
  ∧ ¬ resolves_once (handleResourceRequest_async (H := validating_host)
                       {| url := "file:////etc/passwd" |}
                       (constructor (H := posix_host) true test_env)).2.
Proof.
  assert (∀ t, callbacks t = [] → ¬ resolves_once t) as Hnone.
  { intros t Ht (r & Hr & _). by rewrite Ht in Hr. }
  split; [eexists; reflexivity |]. split; [reflexivity |].
  repeat split; apply Hnone; reflexivity.
Qed.
